(** * CryptoNight v0 (cn/0): a shallow embedding of [cryptonight_impl.c]

    The C code works on [uint8_t], [uint32_t] and [uint64_t] values and on
    fixed-size arrays of them.  Here a machine integer is a [Z] with its
    wrap-around written out, an array is a [list Z] read with [!!!] and
    updated with [<[ _ := _ ]>], and a multi-byte load or store ([memcpy]
    to or from a [uint64_t]) is little-endian, as on the WebAssembly target
    the file is written for. *)

From Stdlib Require Import ZArith Lia.
From Equations Require Import Equations.
From stdpp Require Import base numbers list list_numbers option.

Local Open Scope Z_scope.

(** ** Machine words *)

Module Word.

Definition wrap8 (x : Z) : Z := x mod 2 ^ 8.
Definition wrap32 (x : Z) : Z := x mod 2 ^ 32.
Definition wrap64 (x : Z) : Z := x mod 2 ^ 64.

(** [memcpy(&v, p, n)] on a little-endian target. *)
Definition le_to_Z (bs : list Z) : Z := little_endian_to_Z 8 bs.

Definition load64 (buf : list Z) (off : nat) : Z :=
  le_to_Z (take 8 (drop off buf)).

(** [memcpy(p, &v, 8)] on a little-endian target. *)
Definition u64_bytes (v : Z) : list Z := Z_to_little_endian 8 8 v.

(** [buf[i]] for an index that the C code keeps in range. *)
Definition at_ (buf : list Z) (i : nat) : Z := buf !!! i.

(** [memcpy(dst + off, src, |src|)]. *)
Definition blit (dst : list Z) (off : nat) (src : list Z) : list Z :=
  list_inserts off src dst.

Definition is_byte (b : Z) : Prop := 0 <= b < 256.
Definition is_u64 (w : Z) : Prop := 0 <= w < 2 ^ 64.

End Word.
Import Word.

(** ** Loops *)

Module Loops.

Section ChunkLoop.
Context {A : Type} (n : nat) (body : A -> list Z -> A).

(** [for (; len >= n; len -= n, p += n) body(p[0..n))] over a buffer
    of [len] bytes, for a stride [n > 0]: the result is the loop state
    and the bytes that are left. *)
Equations? chunk_loop (st : A) (inp : list Z) : A * list Z
  by wf (length inp) lt :=
  chunk_loop st inp with decide (0 < n <= length inp)%nat := {
    | left _ => chunk_loop (body st (take n inp)) (drop n inp)
    | right _ => (st, inp) }.
Proof. rewrite length_drop. lia. Qed.
End ChunkLoop.

(** [for (i = lo; i < hi; i += step) body(i)] for [step > 0], where the
    body leaves [i] alone: the trip count is the ceiling of
    [(hi - lo) / step]. *)
Definition for_step {S : Type} (lo hi step : Z) (body : Z -> S -> S) (s : S)
  : S :=
  snd (N.iter (Z.to_N ((hi - lo + step - 1) / step))
              (fun '(i, s) => (i + step, body i s)) (lo, s)).

(** [for (i = 0; i < n; i++) body] in a function that can fail: the
    body runs [n] times unless it fails first. *)
Definition for_n {S : Type} (n : N) (body : S -> option S) (s : S)
  : option S :=
  N.iter n (fun o => o ≫= body) (Some s).

End Loops.
Import Loops.

(** ** Keccak-f[1600] *)

Module Keccak.

Definition keccak_rc : list Z :=
  [ 0x0000000000000001; 0x0000000000008082; 0x800000000000808a;
    0x8000000080008000; 0x000000000000808b; 0x0000000080000001;
    0x8000000080008081; 0x8000000000008009; 0x000000000000008a;
    0x0000000000000088; 0x0000000080008009; 0x000000008000000a;
    0x000000008000808b; 0x800000000000008b; 0x8000000000008089;
    0x8000000000008003; 0x8000000000008002; 0x8000000000000080;
    0x000000000000800a; 0x800000008000000a; 0x8000000080008081;
    0x8000000000008080; 0x0000000080000001; 0x8000000080008008 ].

(** [#define ROTL64(x, y) (((x) << (y)) | ((x) >> (64 - (y))))] on
    [uint64_t]: the left shift drops the bits above 63. *)
Definition ROTL64 (x y : Z) : Z :=
  Z.lor (wrap64 (Z.shiftl x y)) (Z.shiftr x (64 - y)).

Definition piln : list nat :=
  [ 10; 7; 11; 17; 18; 3; 5; 16; 8; 21; 24; 4;
    15; 23; 19; 13; 12; 2; 20; 14; 22; 9; 6; 1 ]%nat.

Definition rotc : list Z :=
  [ 1; 3; 6; 10; 15; 21; 28; 36; 45; 55; 2; 14;
    27; 41; 56; 8; 25; 43; 62; 18; 39; 61; 20; 44 ].

(** [st[i] ^= v] *)
Definition xor_at (st : list Z) (i : nat) (v : Z) : list Z :=
  <[ i := Z.lxor (at_ st i) v ]> st.

Definition theta (st : list Z) : list Z :=
  let bc := (fun i : nat =>
               Z.lxor (Z.lxor (Z.lxor (Z.lxor (at_ st i) (at_ st (i + 5)))
                                      (at_ st (i + 10)))
                              (at_ st (i + 15)))
                      (at_ st (i + 20))) <$> seq 0 5 in
  foldl (fun st i =>
           let t := Z.lxor (at_ bc ((i + 4) mod 5))
                           (ROTL64 (at_ bc ((i + 1) mod 5)) 1) in
           foldl (fun st j => xor_at st (j + i) t) st [0; 5; 10; 15; 20]%nat)
        st (seq 0 5).

(** The loop carries [t] along with the state. *)
Definition rho_pi (st : list Z) : list Z :=
  fst (foldl (fun '(st, t) i =>
                let j := piln !!! i in
                let temp := at_ st j in
                (<[ j := ROTL64 t (rotc !!! i) ]> st, temp))
             (st, at_ st 1) (seq 0 24)).

Definition chi (st : list Z) : list Z :=
  foldl (fun st j =>
           let tmp := (fun i : nat => at_ st (j + i)) <$> seq 0 5 in
           foldl (fun st i =>
                    <[ (j + i)%nat :=
                         Z.lxor (at_ tmp i)
                                (Z.land (wrap64 (Z.lnot (at_ tmp ((i + 1) mod 5))))
                                        (at_ tmp ((i + 2) mod 5))) ]> st)
                 st (seq 0 5))
        st [0; 5; 10; 15; 20]%nat.

Definition iota (round : nat) (st : list Z) : list Z :=
  xor_at st 0 (keccak_rc !!! round).

Definition keccak_round (st : list Z) (round : nat) : list Z :=
  iota round (chi (rho_pi (theta st))).

Definition keccakf (st : list Z) : list Z :=
  foldl keccak_round st (seq 0 24).

Definition rsiz : nat := 136.

(** [for (i = 0; i < rsiz / 8; i++) { memcpy(&v, blk + i * 8, 8); st[i] ^= v; }] *)
Definition xor_in (st blk : list Z) : list Z :=
  foldl (fun st i => xor_at st i (load64 blk (i * 8))) st (seq 0 (rsiz / 8)).

(** [for (; inlen >= rsiz; inlen -= rsiz, in += rsiz) { xor_in; keccakf }]:
    it returns the state and what is left of the input. *)
Definition absorb (st : list Z) (inp : list Z) : list Z * list Z :=
  chunk_loop rsiz (fun st blk => keccakf (xor_in st blk)) st inp.

Definition keccak1600 (inp : list Z) : list Z :=
  let '(st, rest) := absorb (replicate 25 0) inp in
  let temp := blit (replicate rsiz 0) 0 rest in
  let temp := <[ length rest := 0x01 ]> temp in
  let temp := <[ (rsiz - 1)%nat := Z.lor (at_ temp (rsiz - 1)) 0x80 ]> temp in
  let st := keccakf (xor_in st temp) in
  take 200 (st ≫= u64_bytes).

End Keccak.

(** ** Software AES *)

Module AES.

Definition aes_sbox : list Z :=
  [
    0x63; 0x7c; 0x77; 0x7b; 0xf2; 0x6b; 0x6f; 0xc5; 0x30; 0x01; 0x67; 0x2b; 0xfe; 0xd7; 0xab; 0x76;
    0xca; 0x82; 0xc9; 0x7d; 0xfa; 0x59; 0x47; 0xf0; 0xad; 0xd4; 0xa2; 0xaf; 0x9c; 0xa4; 0x72; 0xc0;
    0xb7; 0xfd; 0x93; 0x26; 0x36; 0x3f; 0xf7; 0xcc; 0x34; 0xa5; 0xe5; 0xf1; 0x71; 0xd8; 0x31; 0x15;
    0x04; 0xc7; 0x23; 0xc3; 0x18; 0x96; 0x05; 0x9a; 0x07; 0x12; 0x80; 0xe2; 0xeb; 0x27; 0xb2; 0x75;
    0x09; 0x83; 0x2c; 0x1a; 0x1b; 0x6e; 0x5a; 0xa0; 0x52; 0x3b; 0xd6; 0xb3; 0x29; 0xe3; 0x2f; 0x84;
    0x53; 0xd1; 0x00; 0xed; 0x20; 0xfc; 0xb1; 0x5b; 0x6a; 0xcb; 0xbe; 0x39; 0x4a; 0x4c; 0x58; 0xcf;
    0xd0; 0xef; 0xaa; 0xfb; 0x43; 0x4d; 0x33; 0x85; 0x45; 0xf9; 0x02; 0x7f; 0x50; 0x3c; 0x9f; 0xa8;
    0x51; 0xa3; 0x40; 0x8f; 0x92; 0x9d; 0x38; 0xf5; 0xbc; 0xb6; 0xda; 0x21; 0x10; 0xff; 0xf3; 0xd2;
    0xcd; 0x0c; 0x13; 0xec; 0x5f; 0x97; 0x44; 0x17; 0xc4; 0xa7; 0x7e; 0x3d; 0x64; 0x5d; 0x19; 0x73;
    0x60; 0x81; 0x4f; 0xdc; 0x22; 0x2a; 0x90; 0x88; 0x46; 0xee; 0xb8; 0x14; 0xde; 0x5e; 0x0b; 0xdb;
    0xe0; 0x32; 0x3a; 0x0a; 0x49; 0x06; 0x24; 0x5c; 0xc2; 0xd3; 0xac; 0x62; 0x91; 0x95; 0xe4; 0x79;
    0xe7; 0xc8; 0x37; 0x6d; 0x8d; 0xd5; 0x4e; 0xa9; 0x6c; 0x56; 0xf4; 0xea; 0x65; 0x7a; 0xae; 0x08;
    0xba; 0x78; 0x25; 0x2e; 0x1c; 0xa6; 0xb4; 0xc6; 0xe8; 0xdd; 0x74; 0x1f; 0x4b; 0xbd; 0x8b; 0x8a;
    0x70; 0x3e; 0xb5; 0x66; 0x48; 0x03; 0xf6; 0x0e; 0x61; 0x35; 0x57; 0xb9; 0x86; 0xc1; 0x1d; 0x9e;
    0xe1; 0xf8; 0x98; 0x11; 0x69; 0xd9; 0x8e; 0x94; 0x9b; 0x1e; 0x87; 0xe9; 0xce; 0x55; 0x28; 0xdf;
    0x8c; 0xa1; 0x89; 0x0d; 0xbf; 0xe6; 0x42; 0x68; 0x41; 0x99; 0x2d; 0x0f; 0xb0; 0x54; 0xbb; 0x16 ].

(** [(uint8_t)((x << 1) ^ (((x >> 7) & 1) * 0x1b))] *)
Definition xtime (x : Z) : Z :=
  wrap8 (Z.lxor (Z.shiftl x 1) (Z.land (Z.shiftr x 7) 1 * 0x1b)).

(** One pass of the MixColumns loop body: column [c] of [s]. *)
Definition mix_column (s : list Z) (c : nat) : list Z :=
  let a0 := at_ s (c * 4 + 0) in
  let a1 := at_ s (c * 4 + 1) in
  let a2 := at_ s (c * 4 + 2) in
  let a3 := at_ s (c * 4 + 3) in
  let x0 := xtime a0 in
  let x1 := xtime a1 in
  let x2 := xtime a2 in
  let x3 := xtime a3 in
  let s := <[ (c * 4 + 0)%nat :=
                wrap8 (Z.lxor (Z.lxor (Z.lxor (Z.lxor x0 x1) a1) a2) a3) ]> s in
  let s := <[ (c * 4 + 1)%nat :=
                wrap8 (Z.lxor (Z.lxor (Z.lxor (Z.lxor a0 x1) x2) a2) a3) ]> s in
  let s := <[ (c * 4 + 2)%nat :=
                wrap8 (Z.lxor (Z.lxor (Z.lxor (Z.lxor a0 a1) x2) x3) a3) ]> s in
  <[ (c * 4 + 3)%nat :=
       wrap8 (Z.lxor (Z.lxor (Z.lxor (Z.lxor x0 a0) a1) a2) x3) ]> s.

(** [out] may be the same array as [inp]: [inp] is read in full into [t]
    before [out] is written, so the result is a function of the block
    and the key. *)
Definition aes_single_round (inp key : list Z) : list Z :=
  let t := (fun i : nat => at_ aes_sbox (Z.to_nat (at_ inp i))) <$> seq 0 16 in
  let s := [ at_ t 0;  at_ t 5;  at_ t 10; at_ t 15;
             at_ t 4;  at_ t 9;  at_ t 14; at_ t 3;
             at_ t 8;  at_ t 13; at_ t 2;  at_ t 7;
             at_ t 12; at_ t 1;  at_ t 6;  at_ t 11 ] in
  let s := foldl mix_column s (seq 0 4) in
  (fun i : nat => wrap8 (Z.lxor (at_ s i) (at_ key i))) <$> seq 0 16.

Definition rcon : list Z := [0x01; 0x02; 0x04; 0x08; 0x10; 0x20; 0x40].

(** One pass of [while (n < 240)]: four more bytes of the schedule.  The
    loop state is the buffer and [rcon_idx]; [n] advances by four. *)
Definition expand_step (n : Z) (st : list Z * nat) : list Z * nat :=
  let '(expanded, rcon_idx) := st in
  let k := Z.to_nat n in
  let temp := take 4 (drop (k - 4) expanded) in
  let '(temp, rcon_idx) :=
    if decide (n mod 32 = 0) then
      let t0 := at_ temp 0 in
      let temp :=
        <[ 0%nat := wrap8 (Z.lxor (at_ aes_sbox (Z.to_nat (at_ temp 1)))
                                  (at_ rcon rcon_idx)) ]> temp in
      let temp := <[ 1%nat := at_ aes_sbox (Z.to_nat (at_ temp 2)) ]> temp in
      let temp := <[ 2%nat := at_ aes_sbox (Z.to_nat (at_ temp 3)) ]> temp in
      let temp := <[ 3%nat := at_ aes_sbox (Z.to_nat t0) ]> temp in
      (temp, S rcon_idx)
    else if decide (n mod 32 = 16) then
      (foldl (fun temp i =>
                <[ i := at_ aes_sbox (Z.to_nat (at_ temp i)) ]> temp)
             temp (seq 0 4), rcon_idx)
    else (temp, rcon_idx) in
  (foldl (fun expanded i =>
            <[ (k + i)%nat :=
                 wrap8 (Z.lxor (at_ expanded (k + i - 32)) (at_ temp i)) ]> expanded)
         expanded (seq 0 4), rcon_idx).

Definition aes256_expand_key (key : list Z) : list Z :=
  let expanded := blit (replicate 240 0) 0 (take 32 key) in
  fst (for_step 32 240 4 expand_step (expanded, 0%nat)).

(** [aes_single_round(data, data, expanded_key + r * 16)] for [r < 10]. *)
Definition aes_pseudo_round (data expanded_key : list Z) : list Z :=
  foldl (fun data r => aes_single_round data (drop (r * 16) expanded_key))
        data (seq 0 10).

End AES.

(** ** CryptoNight v0 *)

Module CryptoNight.
Import Keccak AES.

Definition CN_MEMORY : Z := 2097152.
Definition CN_ITER : Z := 524288.
Definition AES_BLOCK_SIZE : Z := 16.
Definition AES_KEY_SIZE : Z := 32.
Definition INIT_SIZE_BYTE : Z := 128.

(** The four final hash functions are [extern]: each is taken as the
    function from its arguments to the bytes it stores through its
    output pointer. *)
Record finalizers : Type := {
  blake256_hash : list Z -> Z -> list Z;
  groestl : list Z -> Z -> list Z;
  jh_hash : Z -> list Z -> Z -> list Z;
  skein_hash : Z -> list Z -> Z -> list Z }.

(** [for (i = 0; i < 16; i++) a[i] ^= b[i]] *)
Definition xor_blocks (a b : list Z) : list Z :=
  foldl (fun a i => <[ i := wrap8 (Z.lxor (at_ a i) (at_ b i)) ]> a)
        a (seq 0 16).

(** The result is the pair [(hi, lo)] stored through the two pointers. *)
Definition mul_128 (a b : Z) : Z * Z :=
  let a_lo := wrap32 a in
  let a_hi := Z.shiftr a 32 in
  let b_lo := wrap32 b in
  let b_hi := Z.shiftr b 32 in
  let p0 := wrap64 (a_lo * b_lo) in
  let p1 := wrap64 (a_lo * b_hi) in
  let p2 := wrap64 (a_hi * b_lo) in
  let p3 := wrap64 (a_hi * b_hi) in
  let mid := wrap64 (p1 + Z.shiftr p0 32) in
  let mid := wrap64 (mid + p2) in
  let p3 := if decide (mid < p2) then wrap64 (p3 + 0x100000000) else p3 in
  let lo := Z.lor (wrap64 (Z.shiftl mid 32)) (wrap32 p0) in
  let hi := wrap64 (p3 + Z.shiftr mid 32) in
  (hi, lo).

(** [((uint32_t)w) & 0x1FFFF0] *)
Definition sp_index (w : Z) : Z := Z.land (wrap32 w) 0x1FFFF0.

(** Reads and writes of the scratchpad in the main loop, at offsets that
    come from the data: an access outside the allocated block is
    undefined behaviour, [None] here. *)
Definition sp_load (hp : list Z) (j : Z) (n : nat) : option (list Z) :=
  if decide (0 <= j /\ j + Z.of_nat n <= Z.of_nat (length hp))
  then Some (take n (drop (Z.to_nat j) hp)) else None.

Definition sp_store (hp : list Z) (j : Z) (bs : list Z) : option (list Z) :=
  if decide (0 <= j /\ j + Z.of_nat (length bs) <= Z.of_nat (length hp))
  then Some (blit hp (Z.to_nat j) bs) else None.

Definition sp_load64 (hp : list Z) (j : Z) : option Z :=
  le_to_Z <$> sp_load hp j 8.

Definition sp_store64 (hp : list Z) (j : Z) (v : Z) : option (list Z) :=
  sp_store hp j (u64_bytes v).

(** What lives across the iterations of the main loop. *)
Record loop_state : Type := LoopState {
  hp_state : list Z;
  a : Z * Z;
  b : Z * Z }.

(** One iteration of the main loop.  Next to the new state it gives the
    two scratchpad offsets [(j1, j2)] that it used. *)
Definition main_iter (st : loop_state) : option (loop_state * (Z * Z)) :=
  let hp := hp_state st in
  let '(a0, a1) := a st in
  let '(b0, b1) := b st in
  (* Sub-step A *)
  let j1 := sp_index a0 in
  c1 ← sp_load hp j1 16;
  let c1 := aes_single_round c1 (u64_bytes a0 ++ u64_bytes a1) in
  let c1_64 := (load64 c1 0, load64 c1 8) in
  hp ← sp_store64 hp j1 (Z.lxor (fst c1_64) b0);
  hp ← sp_store64 hp (j1 + 8) (Z.lxor (snd c1_64) b1);
  (* Sub-step B *)
  let j2 := sp_index (fst c1_64) in
  c2_0 ← sp_load64 hp j2;
  c2_1 ← sp_load64 hp (j2 + 8);
  let '(hi, lo) := mul_128 (fst c1_64) c2_0 in
  let a0 := wrap64 (a0 + hi) in
  let a1 := wrap64 (a1 + lo) in
  hp ← sp_store64 hp j2 a0;
  hp ← sp_store64 hp (j2 + 8) a1;
  let a0 := Z.lxor a0 c2_0 in
  let a1 := Z.lxor a1 c2_1 in
  Some (LoopState hp (a0, a1) c1_64, (j1, j2)).

(** [for (i = 0; i < CN_ITER / 2; i++)]; the offsets of every iteration
    are collected in order. *)
Definition main_loop (st : loop_state)
  : option (loop_state * list (Z * Z)) :=
  for_n (Z.to_N (CN_ITER / 2))
        (fun '(st, used) => '(st, js) ← main_iter st; Some (st, used ++ [js]))
        (st, []).

(** Step 3: [text] is rewritten and copied out, stride after stride. *)
Definition init_scratchpad (expanded_key text hp : list Z)
  : list Z * list Z :=
  for_step 0 CN_MEMORY INIT_SIZE_BYTE
    (fun i '(text, hp) =>
       let text :=
         for_step 0 INIT_SIZE_BYTE AES_BLOCK_SIZE
           (fun j text =>
              blit text (Z.to_nat j)
                   (aes_pseudo_round (drop (Z.to_nat j) text) expanded_key))
           text in
       (text, blit hp (Z.to_nat i) (take (Z.to_nat INIT_SIZE_BYTE) text)))
    (text, hp).

(** Step 5: the scratchpad is folded back into [text]. *)
Definition reduce_scratchpad (expanded_key text hp : list Z) : list Z :=
  for_step 0 CN_MEMORY INIT_SIZE_BYTE
    (fun i text =>
       for_step 0 INIT_SIZE_BYTE AES_BLOCK_SIZE
         (fun j text =>
            let blk := xor_blocks (drop (Z.to_nat j) text)
                                  (drop (Z.to_nat (i + j)) hp) in
            blit text (Z.to_nat j) (aes_pseudo_round blk expanded_key))
         text)
    text.

(** Step 7: [switch (state[0] & 3)]. *)
Definition final_hash (F : finalizers) (state : list Z) : list Z :=
  let sel := Z.land (at_ state 0) 3 in
  if decide (sel = 0) then blake256_hash F state 200
  else if decide (sel = 1) then groestl F state (200 * 8)
  else if decide (sel = 2) then jh_hash F 256 state (200 * 8)
  else skein_hash F 256 state (200 * 8).

(** The body of [cn_hash] between [malloc] and [free]: from the input
    bytes and the block [hp] that [malloc] gave to what the final hash
    stores at [output].  [None] is an access outside the scratchpad. *)
Definition cn_digest (F : finalizers) (hp input : list Z)
  : option (list Z) :=
  let state := keccak1600 input in
  let expanded_key := aes256_expand_key state in
  let text := take (Z.to_nat INIT_SIZE_BYTE) (drop 64 state) in
  let '(_, hp) := init_scratchpad expanded_key text hp in
  let a := (Z.lxor (load64 state 0) (load64 state 32),
            Z.lxor (load64 state 8) (load64 state 40)) in
  let b := (Z.lxor (load64 state 16) (load64 state 48),
            Z.lxor (load64 state 24) (load64 state 56)) in
  '(st, _) ← main_loop (LoopState hp a b);
  let hp := hp_state st in
  let expanded_key := aes256_expand_key (drop 32 state) in
  let text := take (Z.to_nat INIT_SIZE_BYTE) (drop 64 state) in
  let text := reduce_scratchpad expanded_key text hp in
  let state := blit state 64 (take (Z.to_nat INIT_SIZE_BYTE) text) in
  let lanes := keccakf ((fun i : nat => load64 state (i * 8)) <$> seq 0 25) in
  let state := lanes ≫= u64_bytes in
  Some (final_hash F state).

(** *** The exported functions, on the caller's memory *)

(** The caller's address space: a byte at every address. *)
Definition mem : Type := Z -> Z.

Definition mem_read (m : mem) (p : Z) (n : nat) : list Z :=
  (fun k : nat => m (p + Z.of_nat k)) <$> seq 0 n.

Definition mem_write (m : mem) (p : Z) (bs : list Z) : mem :=
  fun addr =>
    if decide (p <= addr < p + Z.of_nat (length bs))
    then at_ bs (Z.to_nat (addr - p)) else m addr.

(** [malloc] is [None] when it returns [NULL], and otherwise the block
    it hands out.  [input] is the [input_len] bytes behind the input
    pointer.  The function returns [void]: all the caller gets back is
    its memory. *)
Definition cn_hash (F : finalizers) (malloc : option (list Z))
           (input : list Z) (m : mem) (output : Z) : option mem :=
  match malloc with
  | None => Some m
  | Some hp => d ← cn_digest F hp input; Some (mem_write m output d)
  end.

Definition get_memory_size : Z := CN_MEMORY.

(** [try_hash] up to the call of [cn_hash]: [None] when the length is
    refused, otherwise the [blob_len] bytes of the local array [input]
    that are handed to [cn_hash]. *)
Definition try_hash_input (m : mem) (blob blob_len nonce : Z)
  : option (list Z) :=
  if decide (256 < blob_len) then None
  else
    let input := blit (replicate 256 0) 0
                      (mem_read m blob (Z.to_nat blob_len)) in
    let input :=
      if decide (43 <= blob_len) then
        let input := <[ 39%nat := wrap8 (Z.land nonce 0xFF) ]> input in
        let input :=
          <[ 40%nat := wrap8 (Z.land (Z.shiftr nonce 8) 0xFF) ]> input in
        let input :=
          <[ 41%nat := wrap8 (Z.land (Z.shiftr nonce 16) 0xFF) ]> input in
        <[ 42%nat := wrap8 (Z.land (Z.shiftr nonce 24) 0xFF) ]> input
      else input in
    Some (take (Z.to_nat blob_len) input).

Definition try_hash (F : finalizers) (malloc : option (list Z)) (m : mem)
           (blob blob_len nonce target out_hash : Z) : option (Z * mem) :=
  match try_hash_input m blob blob_len nonce with
  | None => Some (0, m)
  | Some input =>
      m ← cn_hash F malloc input m out_hash;
      let hash_val := le_to_Z (mem_read m (out_hash + 24) 8) in
      Some (if decide (hash_val < target) then 1 else 0, m)
  end.

End CryptoNight.

(** ** [cn_slow_hash] *)

Module SlowHash.
Import CryptoNight.

(** Modelled from the spec: the three errors of its section 7, which the
    C sources do not declare, and the status of a call that reports one. *)
Inductive error : Type :=
| AllocationFailure
| UnsupportedVariant
| InvalidInputLength.

Inductive status : Type :=
| Done
| Failed (e : error).

(** Modelled from the spec: [cn_slow_hash] is declared in [cryptonight.h]
    ("variant: must be 0 for cn/0") and defined in none of the source
    files.  The specification supports [variant = 0] only, accepts
    [prehashed] and [height] and ignores them, and rejects any other
    variant at entry with [UnsupportedVariant] and no side effects; a
    failed allocation is an [AllocationFailure].  The result is the
    status together with the caller's memory after the call. *)
Definition cn_slow_hash (F : finalizers) (malloc : option (list Z))
           (data : list Z) (m : mem) (hash : Z)
           (variant prehashed height : Z) : option (status * mem) :=
  if decide (variant = 0) then
    match malloc with
    | None => Some (Failed AllocationFailure, m)
    | Some hp => m ← cn_hash F (Some hp) data m hash; Some (Done, m)
    end
  else Some (Failed UnsupportedVariant, m).

End SlowHash.

(** * What the specification says, written independently of the code *)

(** ** The Keccak-1600 sponge *)

Module KeccakSpec.
Import Keccak.

(** The rate: 136 of the 200 bytes of the state, 17 of its 25 lanes. *)
Definition rate : nat := 136.

(** A rate block as lanes: its 17 little-endian 64-bit words, then the
    eight zero lanes of the capacity, which a block does not reach. *)
Definition block_lanes (blk : list Z) : list Z :=
  (little_endian_to_Z 8 <$> reshape (replicate 17 8%nat) blk)
    ++ replicate 8 0.

(** Absorbing one rate block: XOR it into the state, lane by lane, then
    permute. *)
Definition absorb_block (st blk : list Z) : list Z :=
  keccakf (zip_with Z.lxor st (block_lanes blk)).

(** The original Keccak padding after a message of [n] bytes: [0x01],
    zeros, [0x80], up to the next multiple of the rate; the two marks
    fall on one byte, [0x81], when a single byte is missing. *)
Definition padding (n : nat) : list Z :=
  let q := (rate - n mod rate)%nat in
  if decide (q = 1%nat) then [0x81]
  else [0x01] ++ replicate (q - 2) 0 ++ [0x80].

(** A padded message cut into rate blocks. *)
Definition blocks (l : list Z) : list (list Z) :=
  reshape (replicate (length l / rate) rate) l.

(** The lanes of the state after the last block. *)
Definition final_lanes (msg : list Z) : list Z :=
  foldl absorb_block (replicate 25 0) (blocks (msg ++ padding (length msg))).

(** The whole state after the last block, as bytes. *)
Definition sponge (msg : list Z) : list Z := final_lanes msg ≫= u64_bytes.

End KeccakSpec.

(** ** The AES round *)

Module AESSpec.

(** Product of two polynomials over GF(2), [n] coefficients of [b]. *)
Fixpoint clmul (n : nat) (a b : Z) : Z :=
  match n with
  | O => 0
  | S n' => Z.lxor (if Z.testbit b 0 then a else 0)
                   (clmul n' (Z.shiftl a 1) (Z.shiftr b 1))
  end.

(** Remainder modulo the polynomial [m] of degree 8, for a polynomial of
    degree below [8 + n]. *)
Fixpoint polymod (n : nat) (m x : Z) : Z :=
  match n with
  | O => x
  | S n' => polymod n' m (if Z.testbit x (8 + Z.of_nat n')
                          then Z.lxor x (Z.shiftl m (Z.of_nat n')) else x)
  end.

(** Multiplication in GF(2^8) modulo x^8 + x^4 + x^3 + x + 1. *)
Definition gf_mul (a b : Z) : Z := polymod 7 0x11b (clmul 8 a b).

(** The inverse is the 254th power (and 0 for 0). *)
Definition gf_inv (x : Z) : Z :=
  let x2 := gf_mul x x in
  let x4 := gf_mul x2 x2 in
  let x8 := gf_mul x4 x4 in
  let x16 := gf_mul x8 x8 in
  let x32 := gf_mul x16 x16 in
  let x64 := gf_mul x32 x32 in
  let x128 := gf_mul x64 x64 in
  gf_mul x128 (gf_mul x64 (gf_mul x32 (gf_mul x16 (gf_mul x8 (gf_mul x4 x2))))).

Definition rotl8 (b k : Z) : Z :=
  wrap8 (Z.lor (Z.shiftl b k) (Z.shiftr b (8 - k))).

(** The AES forward S-box: inversion followed by the affine map. *)
Definition sbox (x : Z) : Z :=
  let b := gf_inv x in
  Z.lxor (Z.lxor (Z.lxor (Z.lxor (Z.lxor b (rotl8 b 1)) (rotl8 b 2))
                         (rotl8 b 3))
                 (rotl8 b 4))
         0x63.

Definition sub_bytes (s : list Z) : list Z := sbox <$> s.

(** Column-major state, index = row + 4 * col; row [r] is rotated left
    by [r] positions. *)
Definition shift_rows (s : list Z) : list Z :=
  (fun i : nat =>
     let r := (i mod 4)%nat in
     let c := (i / 4)%nat in
     at_ s (r + 4 * ((c + r) mod 4))) <$> seq 0 16.

Definition mds : list (list Z) :=
  [ [2; 3; 1; 1]; [1; 2; 3; 1]; [1; 1; 2; 3]; [3; 1; 1; 2] ].

(** Entry [r] of column [c] is row [r] of the matrix times the column. *)
Definition mix_columns (s : list Z) : list Z :=
  (fun i : nat =>
     let r := (i mod 4)%nat in
     let c := (i / 4)%nat in
     foldl Z.lxor 0 (zip_with gf_mul (mds !!! r) (take 4 (drop (4 * c) s))))
    <$> seq 0 16.

Definition add_round_key (s key : list Z) : list Z := zip_with Z.lxor s key.

Definition aes_round (inp key : list Z) : list Z :=
  add_round_key (mix_columns (shift_rows (sub_bytes inp))) key.

End AESSpec.

(** ** One iteration of the main loop *)

Module MainLoopSpec.
Import AES CryptoNight.

Definition read_block (P : list Z) (j : Z) : list Z :=
  take 16 (drop (Z.to_nat j) P).

Definition write_block (P : list Z) (j : Z) (blk : list Z) : list Z :=
  take (Z.to_nat j) P ++ blk ++ drop (Z.to_nat j + 16) P.

(** A 128-bit register as its 16 bytes, and back. *)
Definition bytes_of (r : Z * Z) : list Z :=
  u64_bytes (fst r) ++ u64_bytes (snd r).

Definition words_of (blk : list Z) : Z * Z :=
  (le_to_Z (take 8 blk), le_to_Z (take 8 (drop 8 blk))).

Definition xor_block (x y : list Z) : list Z := zip_with Z.lxor x y.

(** Sub-step A: the block at [j1] goes through one AES round keyed with
    [a]; the result XOR [b] is written back, and the result is kept. *)
Definition sub_step_A (st : loop_state) : loop_state * list Z :=
  let j1 := sp_index (fst (a st)) in
  let c1 := aes_single_round (read_block (hp_state st) j1) (bytes_of (a st)) in
  (LoopState (write_block (hp_state st) j1 (xor_block c1 (bytes_of (b st))))
             (a st) (b st), c1).

(** Sub-step B: the full product of [c1[0]] and [c2_0], added to [a];
    the new [a] is written at [j2], then XORed with [c2]; [b] becomes
    [c1]. *)
Definition sub_step_B (st : loop_state) (c1 : list Z) : loop_state :=
  let c1w := words_of c1 in
  let j2 := sp_index (fst c1w) in
  let c2 := words_of (read_block (hp_state st) j2) in
  let prod := fst c1w * fst c2 in
  let hi := prod / 2 ^ 64 in
  let lo := prod mod 2 ^ 64 in
  let a' := ((fst (a st) + hi) mod 2 ^ 64, (snd (a st) + lo) mod 2 ^ 64) in
  LoopState (write_block (hp_state st) j2 (bytes_of a'))
            (Z.lxor (fst a') (fst c2), Z.lxor (snd a') (snd c2))
            c1w.

Definition iteration (st : loop_state) : loop_state :=
  let '(st, c1) := sub_step_A st in sub_step_B st c1.

(** An offset at which a 16-byte block of the scratchpad lies. *)
Definition valid_offset (j : Z) : Prop :=
  0 <= j < 2097152 /\ j mod 16 = 0 /\ j + 16 <= CN_MEMORY.

End MainLoopSpec.

(** ** The mining entry point *)

Module TryHashSpec.
Import CryptoNight.

(** The blob with the nonce stored little-endian at offsets 39..42 when
    there is room for it. *)
Definition with_nonce (blob : list Z) (nonce : Z) : list Z :=
  if decide (43 <= length blob)%nat
  then take 39 blob ++ Z_to_little_endian 4 8 nonce ++ drop 43 blob
  else blob.

(** The final hash functions store 32 bytes. *)
Definition stores_32_bytes (F : finalizers) : Prop :=
  forall st n bits,
    length (blake256_hash F st n) = 32%nat /\
    length (groestl F st n) = 32%nat /\
    length (jh_hash F bits st n) = 32%nat /\
    length (skein_hash F bits st n) = 32%nat.

(** What the specification says of a call of [try_hash] whose [malloc]
    gives [hp]: the blob, with its nonce, is hashed, the 32 bytes of the
    digest are stored at [out_hash], and the result is non-zero exactly
    when the little-endian word in bytes 24..31 of the digest is below
    the target. *)
Definition hashes_and_compares (F : finalizers) (hp : list Z) (m : mem)
           (blob blob_len nonce target out_hash : Z) : Prop :=
  exists digest ret,
    cn_digest F hp (with_nonce (mem_read m blob (Z.to_nat blob_len)) nonce)
    = Some digest /\
    length digest = 32%nat /\
    try_hash F (Some hp) m blob blob_len nonce target out_hash
    = Some (ret, mem_write m out_hash digest) /\
    mem_read (mem_write m out_hash digest) out_hash 32 = digest /\
    (ret <> 0 <-> le_to_Z (take 8 (drop 24 digest)) < target).

(** What the specification says of the bytes that [try_hash] hashes. *)
Definition hashes_blob_with_nonce (m : mem) (blob blob_len nonce : Z)
  : Prop :=
  try_hash_input m blob blob_len nonce
  = Some (with_nonce (mem_read m blob (Z.to_nat blob_len)) nonce).

End TryHashSpec.

(** ** Concrete inputs for the examples *)

Module Inputs.
Import CryptoNight.

(** Stand-ins for the final hash functions. *)
Definition zero_finalizers : finalizers :=
  {| blake256_hash := fun _ _ => replicate 32 0;
     groestl := fun _ _ => replicate 32 0;
     jh_hash := fun _ _ _ => replicate 32 0;
     skein_hash := fun _ _ _ => replicate 32 0 |}.

(** A memory of zeros. *)
Definition zero_mem : mem := fun _ => 0.

(** A block of [CN_MEMORY] bytes as [malloc] may hand it out. *)
Definition zero_block : list Z := replicate (Z.to_nat CN_MEMORY) 0.

Definition zero_state : loop_state := LoopState zero_block (0, 0) (0, 0).

End Inputs.

(** * Auxiliary definitions of the proofs *)

Module KeccakAux.
Import Keccak.

(** [keccak1600] started from any state, for the induction. *)
Definition keccak1600_from (st inp : list Z) : list Z :=
  let '(st, rest) := absorb st inp in
  let temp := blit (replicate rsiz 0) 0 rest in
  let temp := <[ length rest := 0x01 ]> temp in
  let temp := <[ (rsiz - 1)%nat := Z.lor (at_ temp (rsiz - 1)) 0x80 ]> temp in
  let st := keccakf (xor_in st temp) in
  take 200 (st ≫= u64_bytes).

End KeccakAux.

Module MainLoopAux.
Import AES CryptoNight.

(** What an iteration computes once its accesses are known to be in
    range: the checks are gone. *)
Definition iter_result (st : loop_state) : loop_state * (Z * Z) :=
  let hp := hp_state st in
  let j1 := sp_index (fst (a st)) in
  let c1 := aes_single_round (take 16 (drop (Z.to_nat j1) hp))
              (u64_bytes (fst (a st)) ++ u64_bytes (snd (a st))) in
  let c1_64 := (load64 c1 0, load64 c1 8) in
  let hp := blit hp (Z.to_nat j1)
                 (u64_bytes (Z.lxor (fst c1_64) (fst (b st)))) in
  let hp := blit hp (Z.to_nat (j1 + 8))
                 (u64_bytes (Z.lxor (snd c1_64) (snd (b st)))) in
  let j2 := sp_index (fst c1_64) in
  let c2_0 := load64 hp (Z.to_nat j2) in
  let c2_1 := load64 hp (Z.to_nat (j2 + 8)) in
  let hl := mul_128 (fst c1_64) c2_0 in
  let a0 := wrap64 (fst (a st) + fst hl) in
  let a1 := wrap64 (snd (a st) + snd hl) in
  let hp := blit hp (Z.to_nat j2) (u64_bytes a0) in
  let hp := blit hp (Z.to_nat (j2 + 8)) (u64_bytes a1) in
  (LoopState hp (Z.lxor a0 c2_0, Z.lxor a1 c2_1) c1_64, (j1, j2)).

(** The loop state with the offsets collected so far: what the loop keeps,
    and what the body makes of it. *)
Definition loop_inv (s : loop_state * list (Z * Z)) : Prop :=
  Z.of_nat (length (hp_state (fst s))) = CN_MEMORY.

Definition loop_next (s : loop_state * list (Z * Z))
  : loop_state * list (Z * Z) :=
  (fst (iter_result (fst s)), snd s ++ [snd (iter_result (fst s))]).

(** The scratchpad is an array of [CN_MEMORY] bytes. *)
Definition sp_inv (st : loop_state) : Prop :=
  Z.of_nat (length (hp_state st)) = CN_MEMORY /\ Forall is_byte (hp_state st).

End MainLoopAux.

(** ** The key schedule and the scratchpad passes, as specified *)

Module KeyScheduleSpec.
Import AES.

(** The words of FIPS-197, section 5.2, for a 256-bit key: [RotWord],
    [SubWord], and what is XORed into word [n / 4] of the schedule. *)
Definition rot_word (t : list Z) : list Z := drop 1 t ++ take 1 t.

Definition sub_word (t : list Z) : list Z :=
  (fun x => at_ aes_sbox (Z.to_nat x)) <$> t.

Definition schedule_temp (n : Z) (prev : list Z) : list Z :=
  if decide (n mod 32 = 0) then
    zip_with Z.lxor (sub_word (rot_word prev))
             [at_ rcon (Z.to_nat (n / 32 - 1)); 0; 0; 0]
  else if decide (n mod 32 = 16) then sub_word prev
  else prev.

(** Word [w] of the schedule [e] from the words [w - 8] and [w - 1]. *)
Definition schedule_word (e : list Z) (w : nat) : list Z :=
  zip_with Z.lxor (take 4 (drop (4 * (w - 8)) e))
           (schedule_temp (4 * Z.of_nat w) (take 4 (drop (4 * (w - 1)) e))).

End KeyScheduleSpec.

Module ScratchpadSpec.
Import AES CryptoNight AESSpec.

(** Ten rounds over the round keys [expanded_key[16 r .. 16 r + 15]]. *)
Definition ten_rounds (data expanded_key : list Z) : list Z :=
  foldl (fun d (r : nat) => aes_round d (take 16 (drop (r * 16) expanded_key)))
        data (seq 0 10).

(** Step 5 on one block: block [j] of [text] becomes the ten rounds of
    its XOR with a scratchpad block. *)
Definition fold_block (K text : list Z) (j : nat) (blk : list Z) : list Z :=
  blit text j (ten_rounds (zip_with Z.lxor (take 16 (drop j text)) blk) K).

Definition reduce_spec (K text hp : list Z) : list Z :=
  for_step 0 CN_MEMORY INIT_SIZE_BYTE
    (fun i text =>
       for_step 0 INIT_SIZE_BYTE AES_BLOCK_SIZE
         (fun j text =>
            fold_block K text (Z.to_nat j)
                       (take 16 (drop (Z.to_nat (i + j)) hp)))
         text)
    text.

End ScratchpadSpec.

Module ScratchpadAux.
Import AES CryptoNight KeyScheduleSpec.

(** The inner loop of step 3: the eight blocks of [text] through the
    pseudo-round. *)
Definition init_text_step (expanded_key text : list Z) : list Z :=
  for_step 0 INIT_SIZE_BYTE AES_BLOCK_SIZE
    (fun j text =>
       blit text (Z.to_nat j)
            (aes_pseudo_round (drop (Z.to_nat j) text) expanded_key))
    text.

(** [text] is an array of [INIT_SIZE_BYTE] bytes. *)
Definition text_inv (text : list Z) : Prop :=
  length text = 128%nat /\ Forall is_byte text.

(** The loop invariant of [aes256_expand_key] at [n = 4 * w]. *)
Definition schedule_inv (key : list Z) (n : Z) (st : list Z * nat) : Prop :=
  exists w : nat,
    n = 4 * Z.of_nat w /\ (8 <= w <= 60)%nat /\
    length st.1 = 240%nat /\ Forall is_byte st.1 /\
    take 32 st.1 = take 32 key /\
    Z.of_nat st.2 = (n - 1) / 32 /\
    forall w' : nat, (8 <= w' < w)%nat ->
      take 4 (drop (4 * w') st.1) = schedule_word st.1 w'.

End ScratchpadAux.

(** * Proofs *)

(** ** Bits and bytes *)

Section BitsAndBytes.

Lemma lxor_mod_pow2 (x y n : Z) :
  0 <= n -> (Z.lxor x y) mod 2 ^ n = Z.lxor (x mod 2 ^ n) (y mod 2 ^ n).
Proof.
  intros Hn. apply Z.bits_inj'. intros i Hi.
  rewrite Z.lxor_spec, !Z.testbit_mod_pow2, Z.lxor_spec by lia.
  by destruct (i <? n).
Qed.

Lemma lor_disjoint (x y n : Z) :
  0 <= n -> 0 <= y < 2 ^ n -> Z.lor (x * 2 ^ n) y = x * 2 ^ n + y.
Proof.
  intros Hn Hy. rewrite <- Z.add_lor_land.
  assert (Z.land (x * 2 ^ n) y = 0) as ->; [|lia].
  apply Z.bits_inj'. intros i Hi. rewrite Z.land_spec, Z.bits_0.
  destruct (decide (i < n)).
  - by rewrite Z.mul_pow2_bits_low by lia.
  - rewrite <- (Z.mod_small y (2 ^ n)) by lia.
    rewrite Z.mod_pow2_bits_high by lia. apply andb_false_r.
Qed.

Lemma wrap8_byte (x : Z) : is_byte x -> wrap8 x = x.
Proof. unfold is_byte, wrap8. intros. apply Z.mod_small. lia. Qed.

Lemma wrap8_is_byte (x : Z) : is_byte (wrap8 x).
Proof. unfold is_byte, wrap8. apply Z.mod_pos_bound. lia. Qed.

Lemma lxor_is_byte (x y : Z) : is_byte x -> is_byte y -> is_byte (Z.lxor x y).
Proof.
  intros Hx Hy. rewrite <- (wrap8_byte x), <- (wrap8_byte y) by done.
  unfold wrap8. rewrite <- lxor_mod_pow2 by lia. apply wrap8_is_byte.
Qed.

Lemma land_255_is_byte (x : Z) : is_byte (Z.land x 255).
Proof.
  change 255 with (Z.ones 8). rewrite Z.land_ones by lia. apply wrap8_is_byte.
Qed.

Lemma u64_bytes_length (v : Z) : length (u64_bytes v) = 8%nat.
Proof.
  unfold u64_bytes. apply Nat2Z.inj. by rewrite length_Z_to_little_endian.
Qed.

Lemma u64_bytes_is_byte (v : Z) : Forall is_byte (u64_bytes v).
Proof. unfold u64_bytes. apply (Z_to_little_endian_bound 8 8); lia. Qed.

Lemma u64_bytes_le (bs : list Z) :
  length bs = 8%nat -> Forall is_byte bs -> u64_bytes (le_to_Z bs) = bs.
Proof.
  intros Hl Hb. unfold u64_bytes, le_to_Z.
  apply Z_to_little_endian_to_Z; [by rewrite Hl|lia|done].
Qed.

Lemma le_to_Z_u64 (bs : list Z) :
  length bs = 8%nat -> Forall is_byte bs -> is_u64 (le_to_Z bs).
Proof.
  intros Hl Hb. unfold is_u64, le_to_Z.
  pose proof (little_endian_to_Z_bound 8 bs ltac:(lia) Hb) as H.
  by rewrite Hl in H.
Qed.

Lemma Z_to_le_lxor (m u v : Z) :
  0 <= m ->
  Z_to_little_endian m 8 (Z.lxor u v) =
  zip_with Z.lxor (Z_to_little_endian m 8 u) (Z_to_little_endian m 8 v).
Proof.
  intros Hm. revert u v. pattern m. apply natlike_ind; [|clear m Hm|done].
  - intros u v. by rewrite !Z_to_little_endian_0.
  - intros m Hm IH u v. rewrite !Z_to_little_endian_succ by done.
    cbn [zip_with]. f_equal.
    + rewrite !Z.land_ones by lia. apply (lxor_mod_pow2 u v 8). lia.
    + rewrite <- IH. f_equal. apply Z.shiftr_lxor.
Qed.

Lemma load64_0 (c : list Z) : load64 c 0 = le_to_Z (take 8 c).
Proof. unfold load64. by rewrite drop_0. Qed.

Lemma load64_u64 (P : list Z) (j : nat) :
  Forall is_byte P -> (j + 8 <= length P)%nat -> is_u64 (load64 P j).
Proof.
  intros Hb Hj. apply le_to_Z_u64.
  - rewrite length_take, length_drop. lia.
  - by apply Forall_take, Forall_drop.
Qed.

Lemma blit_length (dst : list Z) (off : nat) (src : list Z) :
  length (blit dst off src) = length dst.
Proof. apply length_inserts. Qed.

Lemma blit_split (P : list Z) (j : nat) (blk : list Z) :
  (j + length blk <= length P)%nat ->
  blit P j blk = take j P ++ blk ++ drop (j + length blk) P.
Proof.
  intros H. unfold blit.
  rewrite <- (take_drop j P) at 1.
  assert (j = length (take j P) + 0)%nat as Hj by (rewrite length_take; lia).
  rewrite Hj at 1. rewrite list_inserts_app_r.
  rewrite <- (take_drop (length blk) (drop j P)) at 1.
  rewrite list_inserts_0_r by (rewrite length_take, length_drop; lia).
  by rewrite drop_drop.
Qed.

Lemma blit_is_byte (P : list Z) (j : nat) (blk : list Z) :
  Forall is_byte P -> Forall is_byte blk -> Forall is_byte (blit P j blk).
Proof.
  intros HP. unfold blit. revert j.
  induction blk as [|x blk IH]; intros j Hb; [done|].
  apply list.Forall_cons in Hb as [Hx Hb]. cbn [list_inserts].
  apply Forall_insert; [by apply IH|done].
Qed.

(** Two 64-bit stores next to each other are one 16-byte store. *)
Lemma blit_two_words (P : list Z) (j x y : Z) :
  0 <= j ->
  blit (blit P (Z.to_nat j) (u64_bytes x)) (Z.to_nat (j + 8)) (u64_bytes y)
  = blit P (Z.to_nat j) (u64_bytes x ++ u64_bytes y).
Proof.
  intros Hj. unfold blit. rewrite list_inserts_app_l, u64_bytes_length.
  f_equal. lia.
Qed.

Lemma foldl_length {A B : Type} (f : list A -> B -> list A)
      (l : list B) (s : list A) :
  (forall s i, length (f s i) = length s) -> length (foldl f s l) = length s.
Proof.
  intros Hf. revert s. induction l as [|x l IH]; intros s; simpl; [done|].
  by rewrite IH, Hf.
Qed.

Lemma fmap_at_seq (f : Z -> Z) (l : list Z) :
  (fun i : nat => f (at_ l i)) <$> seq 0 (length l) = f <$> l.
Proof.
  apply list_eq. intros i. rewrite !list_lookup_fmap.
  destruct (decide (i < length l)%nat) as [Hlt|Hge].
  - rewrite lookup_seq_lt by done. simpl. unfold at_.
    destruct (lookup_lt_is_Some_2 l i Hlt) as [x Hx].
    by rewrite (list_lookup_total_correct _ _ _ Hx), Hx.
  - by rewrite lookup_seq_ge, lookup_ge_None_2 by lia.
Qed.

Lemma length16 {A : Type} (l : list A) :
  length l = 16%nat ->
  exists x0 x1 x2 x3 x4 x5 x6 x7 x8 x9 x10 x11 x12 x13 x14 x15,
    l = [x0; x1; x2; x3; x4; x5; x6; x7; x8; x9; x10; x11; x12; x13; x14; x15].
Proof.
  intros H. do 16 (destruct l as [|? l]; [discriminate H|]).
  destruct l; [|discriminate H]. by repeat eexists.
Qed.

End BitsAndBytes.

Ltac bytes_of_Forall :=
  repeat match goal with
         | H : Forall is_byte (_ :: _) |- _ =>
             apply list.Forall_cons in H; destruct H as [? H]
         end.

(** ** Loops *)

Section LoopFacts.

Lemma bind_Some_l {A B : Type} (x : A) (f : A -> option B) :
  Some x ≫= f = f x.
Proof. reflexivity. Qed.

Lemma chunk_loop_step {A : Type} (n : nat) (body : A -> list Z -> A)
      (st : A) (inp : list Z) :
  (0 < n <= length inp)%nat ->
  chunk_loop n body st inp
  = chunk_loop n body (body st (take n inp)) (drop n inp).
Proof.
  intros H. rewrite (chunk_loop_equation_1 n body st inp).
  destruct (decide _); [done|lia].
Qed.

Lemma chunk_loop_stop {A : Type} (n : nat) (body : A -> list Z -> A)
      (st : A) (inp : list Z) :
  ~ (0 < n <= length inp)%nat -> chunk_loop n body st inp = (st, inp).
Proof.
  intros H. rewrite (chunk_loop_equation_1 n body st inp).
  destruct (decide _); [lia|done].
Qed.

Lemma for_n_succ {S : Type} (n : N) (body : S -> option S) (s : S) :
  for_n (N.succ n) body s = for_n n body s ≫= body.
Proof. unfold for_n. by rewrite N.iter_succ. Qed.

(** A body that always succeeds and keeps an invariant runs [n] times. *)
Lemma for_n_invariant {S : Type} (Inv : S -> Prop)
      (body : S -> option S) (f : S -> S) :
  (forall s, Inv s -> body s = Some (f s) /\ Inv (f s)) ->
  forall n s, Inv s ->
              for_n n body s = Some (N.iter n f s) /\ Inv (N.iter n f s).
Proof.
  intros Hstep n s Hs. induction n as [|n IH] using N.peano_ind.
  - done.
  - destruct IH as [IH1 IH2].
    rewrite for_n_succ, IH1, N.iter_succ, bind_Some_l. by apply Hstep.
Qed.

Lemma for_step_invariant {S : Type} (Inv : S -> Prop) (lo hi step : Z)
      (body : Z -> S -> S) (s : S) :
  (forall i s, Inv s -> Inv (body i s)) -> Inv s ->
  Inv (for_step lo hi step body s).
Proof.
  intros Hbody Hs. unfold for_step.
  apply (N.iter_invariant _ _ _ (fun p : Z * S => Inv (snd p)));
    [|done].
  intros [i s'] Hs'. by apply Hbody.
Qed.

End LoopFacts.

(** ** Keccak-1600 *)

Module KeccakProofs.
Import Keccak KeccakSpec KeccakAux.

Lemma xor_at_length st i v : length (xor_at st i v) = length st.
Proof. apply length_insert. Qed.

Lemma theta_length st : length (theta st) = length st.
Proof.
  unfold theta. apply foldl_length. intros s i.
  apply foldl_length. intros. apply xor_at_length.
Qed.

Lemma rho_pi_length st : length (rho_pi st) = length st.
Proof.
  unfold rho_pi. generalize (at_ st 1) as t. generalize (seq 0 24) as l.
  intros l. revert st. induction l as [|i l IH]; intros st t; simpl; [done|].
  by rewrite IH, length_insert.
Qed.

Lemma chi_length st : length (chi st) = length st.
Proof.
  unfold chi. apply foldl_length. intros s j.
  apply foldl_length. intros. apply length_insert.
Qed.

Lemma keccakf_length st : length (keccakf st) = length st.
Proof.
  unfold keccakf. apply foldl_length. intros s r.
  unfold keccak_round, iota.
  by rewrite xor_at_length, chi_length, rho_pi_length, theta_length.
Qed.

Lemma xor_in_length st blk : length (xor_in st blk) = length st.
Proof. unfold xor_in. apply foldl_length. intros. apply xor_at_length. Qed.

Lemma lanes_bytes_length (st : list Z) :
  length (st ≫= u64_bytes) = (8 * length st)%nat.
Proof.
  induction st as [|v st IH]; [done|].
  rewrite bind_cons, length_app, IH, u64_bytes_length. simpl. lia.
Qed.

(** *** The absorb loop against the lanes of a block *)

Lemma reshape_chunks (n : nat) (blk : list Z) :
  reshape (replicate n 8%nat) blk
  = (fun i : nat => take 8 (drop (i * 8) blk)) <$> seq 0 n.
Proof.
  revert blk. induction n as [|n IH]; intros blk; [done|].
  cbn [replicate reshape seq fmap list_fmap].
  rewrite Nat.mul_0_l, drop_0, IH. apply (f_equal (cons (take 8 blk))).
  rewrite <- fmap_S_seq, <- list_fmap_compose.
  apply list_fmap_ext. intros _ i _. cbn.
  rewrite drop_drop. by replace (8 + i * 8)%nat with (S i * 8)%nat by lia.
Qed.

Lemma xor_at_prefix (f : nat -> Z) (n : nat) (st : list Z) :
  (n <= length st)%nat ->
  foldl (fun st i => xor_at st i (f i)) st (seq 0 n)
  = zip_with Z.lxor (take n st) (f <$> seq 0 n) ++ drop n st.
Proof.
  induction n as [|n IH]; intros Hn.
  - by rewrite take_0, drop_0.
  - rewrite seq_S, foldl_app, fmap_app. cbn [foldl fmap list_fmap].
    rewrite Nat.add_0_l, IH by lia.
    destruct (lookup_lt_is_Some_2 st n ltac:(lia)) as [x Hx].
    rewrite (take_S_r st n x) by done.
    assert (Hzl : length (zip_with Z.lxor (take n st) (f <$> seq 0 n)) = n).
    { rewrite length_zip_with, length_take, length_fmap, length_seq. lia. }
    rewrite zip_with_app
      by (rewrite length_take, length_fmap, length_seq; lia).
    cbn [zip_with]. unfold xor_at.
    assert (at_ (zip_with Z.lxor (take n st) (f <$> seq 0 n) ++ drop n st) n
            = x) as ->.
    { unfold at_. rewrite list_lookup_total_alt.
      rewrite lookup_app_r by lia. rewrite Hzl, Nat.sub_diag.
      by rewrite lookup_drop, Nat.add_0_r, Hx. }
    rewrite (drop_S st x n Hx).
    rewrite <- (Nat.add_0_r n) at 1. rewrite <- Hzl at 1.
    rewrite insert_app_r. cbn [insert list_insert].
    by rewrite <- app_assoc.
Qed.

Lemma zip_lxor_zeros (l : list Z) (n : nat) :
  (length l <= n)%nat -> zip_with Z.lxor l (replicate n 0) = l.
Proof.
  revert n. induction l as [|x l IH]; intros n Hn; [done|].
  destruct n as [|n]; [cbn in Hn; lia|]. cbn.
  rewrite Z.lxor_0_r, IH by (cbn in Hn; lia). done.
Qed.

Lemma xor_in_lanes st blk :
  length st = 25%nat -> xor_in st blk = zip_with Z.lxor st (block_lanes blk).
Proof.
  intros Hst. unfold xor_in, block_lanes.
  change (rsiz / 8)%nat with 17%nat.
  rewrite xor_at_prefix by lia.
  rewrite reshape_chunks, <- list_fmap_compose.
  rewrite <- (take_drop 17 st) at 3.
  rewrite zip_with_app
    by (rewrite length_take, length_fmap, length_seq; lia).
  rewrite (zip_lxor_zeros (drop 17 st)) by (rewrite length_drop; lia).
  reflexivity.
Qed.

Lemma absorb_block_code st blk :
  length st = 25%nat -> absorb_block st blk = keccakf (xor_in st blk).
Proof. intros Hst. unfold absorb_block. by rewrite xor_in_lanes. Qed.

Lemma absorb_block_length st blk :
  length st = 25%nat -> length (absorb_block st blk) = 25%nat.
Proof.
  intros Hst. rewrite absorb_block_code by done.
  by rewrite keccakf_length, xor_in_length.
Qed.

Lemma absorbed_length (bl : list (list Z)) st :
  length st = 25%nat -> length (foldl absorb_block st bl) = 25%nat.
Proof.
  revert st. induction bl as [|blk bl IH]; intros st Hst; [done|].
  cbn [foldl]. by apply IH, absorb_block_length.
Qed.

(** The last block as the code builds it is the rest of the message
    followed by the padding. *)
Lemma final_block rest :
  (length rest < rsiz)%nat ->
  let temp := blit (replicate rsiz 0) 0 rest in
  let temp := <[ length rest := 0x01 ]> temp in
  <[ (rsiz - 1)%nat := Z.lor (at_ temp (rsiz - 1)) 0x80 ]> temp
  = rest ++ padding (length rest).
Proof.
  intros Hlt. unfold blit, padding, at_. cbv zeta.
  change rate with rsiz.
  rewrite (Nat.mod_small _ _ Hlt). unfold rsiz in *.
  change (136 - 1)%nat with 135%nat.
  assert (replicate 136 0
          = replicate (length rest) 0 ++ replicate (136 - length rest) 0) as ->.
  { rewrite <- replicate_add. f_equal. lia. }
  rewrite list_inserts_0_r by (by rewrite length_replicate).
  destruct (decide (136 - length rest = 1)%nat) as [E|NE].
  - rewrite E. change (replicate 1 0) with [0].
    rewrite insert_app_r_alt, Nat.sub_diag by lia.
    change (<[0%nat:=1]> [0]) with [1].
    assert (135 = length rest)%nat as -> by lia.
    rewrite list_lookup_total_middle by done.
    by rewrite insert_app_r_alt, Nat.sub_diag by lia.
  - remember (136 - length rest - 2)%nat as q eqn:Eq.
    assert (136 - length rest = S (S q))%nat as -> by lia.
    rewrite replicate_S, replicate_S_end.
    rewrite insert_app_r_alt, Nat.sub_diag by lia.
    remember (replicate q 0) as z eqn:Ez. simpl.
    assert (135%nat = length (rest ++ 1 :: z)) as ->.
    { rewrite length_app. simpl. subst z. rewrite length_replicate. lia. }
    rewrite (assoc app rest (1 :: z) [0]).
    rewrite list_lookup_total_middle by done.
    rewrite insert_app_r_alt, Nat.sub_diag by lia.
    by rewrite <- (assoc app).
Qed.

Lemma padding_length n : length (padding n) = (rsiz - n mod rsiz)%nat.
Proof.
  unfold padding. cbv zeta. change rate with rsiz.
  destruct (decide _) as [E|NE]; [by rewrite E|].
  rewrite !length_app, length_replicate. cbn [length].
  pose proof (Nat.mod_upper_bound n rsiz ltac:(done)). lia.
Qed.

Lemma padding_shift n : (rsiz <= n)%nat -> padding (n - rsiz) = padding n.
Proof.
  intros H. unfold padding. change rate with rsiz.
  replace ((n - rsiz) mod rsiz)%nat with (n mod rsiz)%nat; [done|].
  replace n with ((n - rsiz) + 1 * rsiz)%nat at 1 by lia.
  by rewrite Nat.Div0.mod_add.
Qed.

Lemma blocks_cons l :
  (rsiz <= length l)%nat -> blocks l = take rsiz l :: blocks (drop rsiz l).
Proof.
  intros H. unfold blocks. change rate with rsiz. rewrite length_drop.
  replace (length l / rsiz)%nat with (S ((length l - rsiz) / rsiz)); [done|].
  replace (length l) with ((length l - rsiz) + 1 * rsiz)%nat at 2 by lia.
  rewrite Nat.div_add by done. lia.
Qed.

Lemma blocks_single l : length l = rsiz -> blocks l = [l].
Proof.
  intros H. unfold blocks. change rate with rsiz. rewrite H.
  change (rsiz / rsiz)%nat with 1%nat. simpl.
  by rewrite <- H, firstn_all.
Qed.

Lemma keccak1600_from_spec inp :
  forall st, length st = 25%nat ->
  keccak1600_from st inp =
  foldl absorb_block st (blocks (inp ++ padding (length inp))) ≫= u64_bytes.
Proof.
  remember (length inp) as n eqn:Hn. revert inp Hn.
  induction (lt_wf n) as [n _ IH]. intros inp Hn st Hst. subst n.
  destruct (decide (rsiz <= length inp)%nat) as [Hbig|Hsmall].
  - unfold keccak1600_from, absorb.
    rewrite chunk_loop_step by (unfold rsiz in *; lia).
    fold (absorb (keccakf (xor_in st (take rsiz inp))) (drop rsiz inp)).
    fold (keccak1600_from (keccakf (xor_in st (take rsiz inp))) (drop rsiz inp)).
    rewrite (IH (length (drop rsiz inp))); cycle 1.
    { rewrite length_drop. unfold rsiz in *. lia. }
    { done. }
    { by rewrite keccakf_length, xor_in_length. }
    rewrite length_drop, padding_shift by done.
    rewrite (blocks_cons (inp ++ _)) by (rewrite length_app; lia).
    rewrite take_app_le, drop_app_le by exact Hbig.
    cbn [foldl]. rewrite (absorb_block_code st) by exact Hst. reflexivity.
  - unfold keccak1600_from, absorb.
    rewrite chunk_loop_stop by lia.
    pose proof (final_block inp ltac:(lia)) as Hfb. cbv zeta in Hfb.
    rewrite Hfb.
    rewrite blocks_single; cycle 1.
    { rewrite length_app, padding_length, Nat.mod_small by lia. lia. }
    cbn [foldl]. rewrite (absorb_block_code st) by exact Hst. apply take_ge.
    rewrite lanes_bytes_length, keccakf_length, xor_in_length, Hst. lia.
Qed.

Lemma keccak1600_refines inp : Keccak.keccak1600 inp = sponge inp.
Proof.
  apply (keccak1600_from_spec inp (replicate 25 0)).
  by rewrite length_replicate.
Qed.

Lemma keccak1600_length inp : length (Keccak.keccak1600 inp) = 200%nat.
Proof.
  rewrite keccak1600_refines. unfold sponge, final_lanes.
  rewrite lanes_bytes_length, absorbed_length; [done|].
  apply length_replicate.
Qed.

(** Keccak-256 of the empty message, as a check of the permutation. *)
Example keccak256_empty :
  take 32 (Keccak.keccak1600 []) =
  [0xc5; 0xd2; 0x46; 0x01; 0x86; 0xf7; 0x23; 0x3c; 0x92; 0x7e; 0x7d; 0xb2;
   0xdc; 0xc7; 0x03; 0xc0; 0xe5; 0x00; 0xb6; 0x53; 0xca; 0x82; 0x27; 0x3b;
   0x7b; 0xfa; 0xd8; 0x04; 0x5d; 0x85; 0xa4; 0x70].
Proof. vm_compute. reflexivity. Qed.

(** The padding in the two corner cases: a whole block of padding after
    a message that fills its blocks, and one byte when one is missing. *)
Example padding_full_block :
  padding 272 = [0x01] ++ replicate 134 0 ++ [0x80].
Proof. reflexivity. Qed.

Example padding_one_byte : padding 135 = [0x81].
Proof. reflexivity. Qed.

(** C3. [keccak1600] is the sponge of rate 136 bytes over the message
    followed by the original Keccak padding (0x01, zeros, 0x80, or the
    single byte 0x81): each block of 136 bytes, read as 17 little-endian
    words, is XORed into the first 17 lanes of the state, which is then
    permuted. For every input, of any length, its output is the whole
    state: 200 bytes. *)
Theorem keccak1600_pads_and_emits_full_state (inp : list Z) :
  Keccak.keccak1600 inp = sponge inp
  /\ length (blocks (inp ++ padding (length inp)))
     = (length inp / 136 + 1)%nat
  /\ length (Keccak.keccak1600 inp) = 200%nat.
Proof.
  split; [apply keccak1600_refines|]. split; [|apply keccak1600_length].
  unfold blocks. change rate with rsiz. change 136%nat with rsiz.
  rewrite length_reshape, length_replicate.
  rewrite length_app, padding_length.
  pose proof (Nat.div_mod_eq (length inp) rsiz) as Hdm.
  pose proof (Nat.mod_upper_bound (length inp) rsiz ltac:(done)) as Hm.
  replace (length inp + (rsiz - length inp mod rsiz))%nat
    with ((length inp / rsiz + 1) * rsiz)%nat by lia.
  by rewrite Nat.div_mul.
Qed.

End KeccakProofs.

(** ** The AES round *)

Module AESProofs.
Import AES AESSpec.

(** FIPS-197, section 4.2: {57} . {83} = {c1}. *)
Example gf_mul_57_83 : gf_mul 0x57 0x83 = 0xc1.
Proof. reflexivity. Qed.

(** The table of the code is the AES S-box, entry by entry. *)
Lemma sbox_table :
  Forall (fun x => at_ aes_sbox (Z.to_nat x) = sbox x) (seqZ 0 256).
Proof. apply (bool_decide_unpack _). vm_compute. exact I. Qed.

(** [xtime] is the product by 2, and the products by 1 and 3 follow. *)
Lemma mul_table :
  Forall (fun x => gf_mul 1 x = x /\ gf_mul 2 x = xtime x /\
                   gf_mul 3 x = Z.lxor (xtime x) x) (seqZ 0 256).
Proof. apply (bool_decide_unpack _). vm_compute. exact I. Qed.

Lemma sbox_lookup x : is_byte x -> at_ aes_sbox (Z.to_nat x) = sbox x.
Proof.
  intros Hx. pose proof sbox_table as H.
  rewrite Forall_seqZ in H. apply H. unfold is_byte in Hx. lia.
Qed.

Lemma gf_mul_small x :
  is_byte x ->
  gf_mul 1 x = x /\ gf_mul 2 x = xtime x /\ gf_mul 3 x = Z.lxor (xtime x) x.
Proof.
  intros Hx. pose proof mul_table as H.
  rewrite Forall_seqZ in H. apply H. unfold is_byte in Hx. lia.
Qed.

Lemma xtime_is_byte x : is_byte (xtime x).
Proof. apply wrap8_is_byte. Qed.

Lemma sbox_is_byte x : is_byte (at_ aes_sbox x).
Proof.
  unfold at_. destruct (decide (x < length aes_sbox)%nat) as [Hlt|Hge].
  - assert (Forall is_byte aes_sbox) as H.
    { apply (bool_decide_unpack _). vm_compute. exact I. }
    rewrite Forall_lookup_total in H. by apply H.
  - rewrite list_lookup_total_alt, lookup_ge_None_2 by lia.
    simpl. unfold is_byte. lia.
Qed.

Lemma sub_bytes_code inp :
  length inp = 16%nat -> Forall is_byte inp ->
  (fun i : nat => at_ aes_sbox (Z.to_nat (at_ inp i))) <$> seq 0 16
  = sbox <$> inp.
Proof.
  intros Hl Hb. rewrite <- Hl.
  rewrite (fmap_at_seq (fun x => at_ aes_sbox (Z.to_nat x))).
  apply Forall_fmap_ext_1. eapply list.Forall_impl; [exact Hb|].
  intros x Hx. by apply sbox_lookup.
Qed.

Lemma sub_bytes_is_byte inp :
  Forall is_byte inp -> Forall is_byte (sbox <$> inp).
Proof.
  intros Hb. apply Forall_fmap. eapply list.Forall_impl; [exact Hb|].
  intros x Hx. simpl. rewrite <- sbox_lookup by done. apply sbox_is_byte.
Qed.

Lemma round_byte e k :
  is_byte e -> is_byte k -> wrap8 (Z.lxor (wrap8 e) k) = Z.lxor e k.
Proof.
  intros He Hk. rewrite (wrap8_byte e) by done.
  apply wrap8_byte. by apply lxor_is_byte.
Qed.

Lemma aes_single_round_length inp key :
  length (aes_single_round inp key) = 16%nat.
Proof. unfold aes_single_round. by rewrite length_fmap, length_seq. Qed.

Lemma aes_single_round_is_byte inp key :
  Forall is_byte (aes_single_round inp key).
Proof.
  unfold aes_single_round. apply Forall_fmap, Forall_true.
  intros i. apply wrap8_is_byte.
Qed.

Section Round.
Local Opaque xtime gf_mul.

Lemma aes_single_round_refines inp key :
  length inp = 16%nat -> length key = 16%nat ->
  Forall is_byte inp -> Forall is_byte key ->
  aes_single_round inp key = aes_round inp key.
Proof.
  intros Hli Hlk Hbi Hbk.
  unfold aes_single_round, aes_round, sub_bytes. cbv zeta.
  rewrite !sub_bytes_code by done.
  pose proof (sub_bytes_is_byte inp Hbi) as Hbt.
  destruct (length16 (sbox <$> inp))
    as (t0&t1&t2&t3&t4&t5&t6&t7&t8&t9&t10&t11&t12&t13&t14&t15&Et).
  { by rewrite length_fmap. }
  rewrite Et in *. clear Et.
  destruct (length16 key Hlk)
    as (k0&k1&k2&k3&k4&k5&k6&k7&k8&k9&k10&k11&k12&k13&k14&k15&->).
  bytes_of_Forall.
  unfold shift_rows, mix_columns, add_round_key, mix_column, at_. cbn.
  rewrite !Z.lxor_0_l.
  repeat match goal with
         | H : is_byte ?t |- context [gf_mul _ ?t] =>
             destruct (gf_mul_small t H) as (-> & -> & ->)
         end.
  rewrite !round_byte
    by (repeat apply lxor_is_byte; auto using xtime_is_byte).
  by rewrite !Z.lxor_assoc.
Qed.
End Round.

(** FIPS-197, appendix B, round 1. *)
Example aes_round_fips197 :
  aes_single_round
    [0x19; 0x3d; 0xe3; 0xbe; 0xa0; 0xf4; 0xe2; 0x2b;
     0x9a; 0xc6; 0x8d; 0x2a; 0xe9; 0xf8; 0x48; 0x08]
    [0xa0; 0xfa; 0xfe; 0x17; 0x88; 0x54; 0x2c; 0xb1;
     0x23; 0xa3; 0x39; 0x39; 0x2a; 0x6c; 0x76; 0x05]
  = [0xa4; 0x9c; 0x7f; 0xf2; 0x68; 0x9f; 0x35; 0x2b;
     0x6b; 0x5b; 0xea; 0x43; 0x02; 0x6a; 0x50; 0x49].
Proof. vm_compute. reflexivity. Qed.

(** FIPS-197, appendix A.3: the first and the last derived round key. *)
Example aes256_expand_key_fips197 :
  let k := aes256_expand_key
             [0x60; 0x3d; 0xeb; 0x10; 0x15; 0xca; 0x71; 0xbe;
              0x2b; 0x73; 0xae; 0xf0; 0x85; 0x7d; 0x77; 0x81;
              0x1f; 0x35; 0x2c; 0x07; 0x3b; 0x61; 0x08; 0xd7;
              0x2d; 0x98; 0x10; 0xa3; 0x09; 0x14; 0xdf; 0xf4] in
  take 16 (drop 32 k)
  = [0x9b; 0xa3; 0x54; 0x11; 0x8e; 0x69; 0x25; 0xaf;
     0xa5; 0x1a; 0x8b; 0x5f; 0x20; 0x67; 0xfc; 0xde]
  /\ take 16 (drop 224 k)
     = [0xfe; 0x48; 0x90; 0xd1; 0xe6; 0x18; 0x8d; 0x0b;
        0x04; 0x6d; 0xf3; 0x44; 0x70; 0x6c; 0x63; 0x1e].
Proof. vm_compute. done. Qed.

(** C4. On every 16-byte block and 16-byte key, [aes_single_round] is
    SubBytes, then ShiftRows on the column-major state (row [r] rotated
    left by [r]), then MixColumns with the matrix
    [[2,3,1,1],[1,2,3,1],[1,1,2,3],[3,1,1,2]] over GF(2^8) modulo
    x^8+x^4+x^3+x+1, then the XOR with the key. *)
Theorem aes_single_round_is_aes_round (inp key : list Z) :
  length inp = 16%nat -> length key = 16%nat ->
  Forall is_byte inp -> Forall is_byte key ->
  aes_single_round inp key
  = add_round_key (mix_columns (shift_rows (sub_bytes inp))) key.
Proof. apply aes_single_round_refines. Qed.

Lemma aes_single_round_is_aes_round_witness :
  let blk := replicate 16 0x19 in
  let key := replicate 16 0xa0 in
  aes_single_round blk key
  = add_round_key (mix_columns (shift_rows (sub_bytes blk))) key.
Proof.
  cbv zeta. apply aes_single_round_is_aes_round.
  - reflexivity.
  - reflexivity.
  - apply (bool_decide_unpack _). vm_compute. exact I.
  - apply (bool_decide_unpack _). vm_compute. exact I.
Defined.

End AESProofs.

(** ** The 128-bit product *)

Module MulProofs.
Import CryptoNight.

Lemma mul_128_exact a b :
  is_u64 a -> is_u64 b ->
  mul_128 a b = ((a * b) / 2 ^ 64, (a * b) mod 2 ^ 64).
Proof.
  unfold is_u64. intros Ha Hb. unfold mul_128, wrap32, wrap64.
  rewrite !Z.shiftr_div_pow2, !Z.shiftl_mul_pow2 by lia.
  set (al := a mod 2 ^ 32). set (ah := a / 2 ^ 32).
  set (bl := b mod 2 ^ 32). set (bh := b / 2 ^ 32).
  assert (Hal : 0 <= al < 2 ^ 32) by (apply Z.mod_pos_bound; lia).
  assert (Hbl : 0 <= bl < 2 ^ 32) by (apply Z.mod_pos_bound; lia).
  assert (Hah : 0 <= ah < 2 ^ 32).
  { subst ah. split; [apply Z.div_pos; lia|apply Z.div_lt_upper_bound; lia]. }
  assert (Hbh : 0 <= bh < 2 ^ 32).
  { subst bh. split; [apply Z.div_pos; lia|apply Z.div_lt_upper_bound; lia]. }
  assert (Ea : a = ah * 2 ^ 32 + al).
  { subst ah al. rewrite Z.mul_comm. apply Z.div_mod. lia. }
  assert (Eb : b = bh * 2 ^ 32 + bl).
  { subst bh bl. rewrite Z.mul_comm. apply Z.div_mod. lia. }
  assert (B : forall x y, 0 <= x < 2 ^ 32 -> 0 <= y < 2 ^ 32 ->
                     0 <= x * y <= (2 ^ 32 - 1) * (2 ^ 32 - 1)).
  { intros x y Hx Hy. split; [nia|]. apply Z.mul_le_mono_nonneg; lia. }
  pose proof (B al bl Hal Hbl) as H0. pose proof (B al bh Hal Hbh) as H1.
  pose proof (B ah bl Hah Hbl) as H2. pose proof (B ah bh Hah Hbh) as H3.
  set (p0 := al * bl) in *. set (p1 := al * bh) in *.
  set (p2 := ah * bl) in *. set (p3 := ah * bh) in *.
  rewrite (Z.mod_small p0), (Z.mod_small p1), (Z.mod_small p2),
    (Z.mod_small p3) by lia.
  assert (Hq : 0 <= p0 / 2 ^ 32 < 2 ^ 32).
  { split; [apply Z.div_pos; lia|apply Z.div_lt_upper_bound; lia]. }
  (* the first sum cannot carry *)
  rewrite (Z.mod_small (p1 + p0 / 2 ^ 32)) by lia.
  set (m1 := p1 + p0 / 2 ^ 32) in *.
  assert (Hab : a * b = p3 * 2 ^ 64 + (m1 + p2) * 2 ^ 32 + p0 mod 2 ^ 32).
  { pose proof (Z.div_mod p0 (2 ^ 32) ltac:(lia)).
    subst m1 p0 p1 p2 p3. rewrite Ea, Eb. nia. }
  assert (Hp0m : 0 <= p0 mod 2 ^ 32 < 2 ^ 32) by (apply Z.mod_pos_bound; lia).
  assert (Hm2 : 0 <= (m1 + p2) mod 2 ^ 64 < 2 ^ 64)
    by (apply Z.mod_pos_bound; lia).
  (* the second one can, and [mid < p2] tells *)
  assert (Hc : (m1 + p2 < 2 ^ 64 /\ (m1 + p2) mod 2 ^ 64 = m1 + p2) \/
               (2 ^ 64 <= m1 + p2 /\
                (m1 + p2) mod 2 ^ 64 = m1 + p2 - 2 ^ 64)).
  { destruct (decide (m1 + p2 < 2 ^ 64)); [left|right]; split; try lia.
    - apply Z.mod_small; lia.
    - symmetry. apply (Z.mod_unique _ _ 1); lia. }
  set (m2 := (m1 + p2) mod 2 ^ 64) in *.
  assert (Hshl : (m2 * 2 ^ 32) mod 2 ^ 64 = (m2 mod 2 ^ 32) * 2 ^ 32).
  { change (2 ^ 64) with (2 ^ 32 * 2 ^ 32).
    by rewrite Z.mul_mod_distr_r by lia. }
  rewrite Hshl, lor_disjoint by lia.
  pose proof (Z.div_mod m2 (2 ^ 32) ltac:(lia)) as Hdm.
  assert (Hml : 0 <= m2 mod 2 ^ 32 < 2 ^ 32) by (apply Z.mod_pos_bound; lia).
  assert (Hmh : 0 <= m2 / 2 ^ 32 < 2 ^ 32).
  { split; [apply Z.div_pos; lia|apply Z.div_lt_upper_bound; lia]. }
  set (ml := m2 mod 2 ^ 32) in *. set (mh := m2 / 2 ^ 32) in *.
  assert (Hlo : 0 <= ml * 2 ^ 32 + p0 mod 2 ^ 32 < 2 ^ 64) by lia.
  assert (Hprod : 0 <= a * b < 2 ^ 64 * 2 ^ 64) by nia.
  destruct Hc as [[Hlt Hc]|[Hge Hc]]; destruct (decide (m2 < p2)); try lia.
  - assert (Hhi : a * b = (p3 + mh) * 2 ^ 64 + (ml * 2 ^ 32 + p0 mod 2 ^ 32))
      by lia.
    rewrite (Z.mod_small (p3 + mh)) by lia.
    f_equal.
    + apply (Z.div_unique _ _ _ (ml * 2 ^ 32 + p0 mod 2 ^ 32)); lia.
    + apply (Z.mod_unique _ _ (p3 + mh)); lia.
  - rewrite (Z.mod_small (p3 + 4294967296)) by lia.
    assert (Hhi : a * b = (p3 + 4294967296 + mh) * 2 ^ 64
                          + (ml * 2 ^ 32 + p0 mod 2 ^ 32)) by lia.
    rewrite (Z.mod_small (p3 + 4294967296 + mh)) by lia.
    f_equal.
    + apply (Z.div_unique _ _ _ (ml * 2 ^ 32 + p0 mod 2 ^ 32)); lia.
    + apply (Z.mod_unique _ _ (p3 + 4294967296 + mh)); lia.
Qed.

(** A product in which the middle sum carries. *)
Example mul_128_max :
  mul_128 (2 ^ 64 - 1) (2 ^ 64 - 1) = (2 ^ 64 - 2, 1).
Proof. reflexivity. Qed.

(** C6. For all unsigned 64-bit [a] and [b], [mul_128] gives [hi] and
    [lo], both unsigned 64-bit, with [hi * 2^64 + lo = a * b]. *)
Theorem mul_128_full_product (a b : Z) :
  is_u64 a -> is_u64 b ->
  let '(hi, lo) := mul_128 a b in
  hi * 2 ^ 64 + lo = a * b /\ is_u64 hi /\ is_u64 lo.
Proof.
  intros Ha Hb. rewrite (mul_128_exact a b Ha Hb).
  pose proof (Z.div_mod (a * b) (2 ^ 64) ltac:(lia)) as Hdm.
  pose proof (Z.mod_pos_bound (a * b) (2 ^ 64) ltac:(lia)) as Hm.
  unfold is_u64 in *.
  assert (0 <= a * b < 2 ^ 64 * 2 ^ 64) as Hp by nia.
  split; [lia|]. split; [|done].
  split; [apply Z.div_pos; lia|apply Z.div_lt_upper_bound; lia].
Qed.

Lemma mul_128_full_product_witness :
  let '(hi, lo) := mul_128 0xFFFFFFFFFFFFFFFF 0xFEDCBA9876543210 in
  hi * 2 ^ 64 + lo = 0xFFFFFFFFFFFFFFFF * 0xFEDCBA9876543210
  /\ is_u64 hi /\ is_u64 lo.
Proof.
  apply (mul_128_full_product 0xFFFFFFFFFFFFFFFF 0xFEDCBA9876543210);
    unfold is_u64; lia.
Defined.

End MulProofs.

(** ** The main loop *)

Module MainLoopProofs.
Import AES CryptoNight MainLoopSpec MainLoopAux AESProofs MulProofs.

Lemma land_block_mask x : Z.land x 0x1FFFF0 = 16 * ((x / 16) mod 131072).
Proof.
  change 131072 with (2 ^ 17). change 16 with (2 ^ 4).
  rewrite <- Z.land_ones, <- Z.shiftr_div_pow2, Z.mul_comm,
    <- Z.shiftl_mul_pow2 by lia.
  apply Z.bits_inj'. intros i Hi.
  rewrite Z.land_spec, Z.shiftl_spec, Z.land_spec by lia.
  change 0x1FFFF0 with (Z.shiftl (Z.ones 17) 4).
  rewrite Z.shiftl_spec by lia.
  destruct (decide (i < 4)).
  - rewrite !(Z.testbit_neg_r _ (i - 4)) by lia. by rewrite !andb_false_r.
  - rewrite Z.shiftr_spec by lia. by replace (i - 4 + 4) with i by lia.
Qed.

Lemma sp_index_bound w : 0 <= sp_index w /\ sp_index w + 16 <= CN_MEMORY.
Proof.
  unfold sp_index, CN_MEMORY. rewrite land_block_mask.
  pose proof (Z.mod_pos_bound (wrap32 w / 16) 131072 ltac:(lia)). lia.
Qed.

Lemma sp_index_valid w : valid_offset (sp_index w).
Proof.
  pose proof (sp_index_bound w) as Hb.
  unfold valid_offset. unfold CN_MEMORY in *. split; [lia|]. split; [|lia].
  unfold sp_index. rewrite land_block_mask, Z.mul_comm. apply Z.mod_mul. lia.
Qed.

Lemma sp_load_ok hp j n :
  0 <= j -> j + Z.of_nat n <= Z.of_nat (length hp) ->
  sp_load hp j n = Some (take n (drop (Z.to_nat j) hp)).
Proof. intros. unfold sp_load. by rewrite decide_True. Qed.

Lemma sp_store_ok hp j bs :
  0 <= j -> j + Z.of_nat (length bs) <= Z.of_nat (length hp) ->
  sp_store hp j bs = Some (blit hp (Z.to_nat j) bs).
Proof. intros. unfold sp_store. by rewrite decide_True. Qed.

Lemma sp_load64_ok hp j :
  0 <= j -> j + 8 <= Z.of_nat (length hp) ->
  sp_load64 hp j = Some (load64 hp (Z.to_nat j)).
Proof. intros. unfold sp_load64. by rewrite sp_load_ok by lia. Qed.

Lemma sp_store64_ok hp j v :
  0 <= j -> j + 8 <= Z.of_nat (length hp) ->
  sp_store64 hp j v = Some (blit hp (Z.to_nat j) (u64_bytes v)).
Proof.
  intros. unfold sp_store64. apply sp_store_ok; [done|].
  rewrite u64_bytes_length. lia.
Qed.

Lemma main_iter_in_range st :
  Z.of_nat (length (hp_state st)) = CN_MEMORY ->
  main_iter st = Some (iter_result st).
Proof.
  destruct st as [hp [a0 a1] [b0 b1]]. cbn [hp_state]. intros Hlen.
  unfold main_iter, iter_result. cbn [hp_state a b fst snd].
  pose proof (sp_index_bound a0) as Hj1.
  rewrite sp_load_ok, bind_Some_l by (unfold CN_MEMORY in *; lia).
  set (c1 := aes_single_round _ _).
  pose proof (sp_index_bound (load64 c1 0)) as Hj2.
  set (j1 := sp_index a0) in *. set (j2 := sp_index (load64 c1 0)) in *.
  rewrite (sp_store64_ok hp j1), bind_Some_l by (unfold CN_MEMORY in *; lia).
  rewrite (sp_store64_ok _ (j1 + 8)), bind_Some_l
    by (rewrite ?blit_length; unfold CN_MEMORY in *; lia).
  set (hp2 := blit (blit hp _ _) _ _).
  assert (Hlen2 : Z.of_nat (length hp2) = CN_MEMORY).
  { subst hp2. by rewrite !blit_length. }
  rewrite (sp_load64_ok hp2 j2), bind_Some_l by (unfold CN_MEMORY in *; lia).
  rewrite (sp_load64_ok hp2 (j2 + 8)), bind_Some_l
    by (unfold CN_MEMORY in *; lia).
  destruct (mul_128 _ _) as [hi lo]. cbn [fst snd].
  rewrite (sp_store64_ok hp2 j2), bind_Some_l by (unfold CN_MEMORY in *; lia).
  rewrite (sp_store64_ok _ (j2 + 8)), bind_Some_l
    by (rewrite ?blit_length; unfold CN_MEMORY in *; lia).
  reflexivity.
Qed.

Lemma iter_result_length st :
  length (hp_state (fst (iter_result st))) = length (hp_state st).
Proof. unfold iter_result. cbn [fst hp_state]. by rewrite !blit_length. Qed.

Lemma iter_result_offsets st :
  valid_offset (fst (snd (iter_result st))) /\
  valid_offset (snd (snd (iter_result st))).
Proof. unfold iter_result. cbn [fst snd]. split; apply sp_index_valid. Qed.

(** *** The loop *)

Lemma loop_body_step s :
  loop_inv s ->
  (let '(st, used) := s in
   '(st, js) ← main_iter st; Some (st, used ++ [js])) = Some (loop_next s)
  /\ loop_inv (loop_next s).
Proof.
  destruct s as [st used]. unfold loop_inv, loop_next. cbn [fst snd].
  intros Hlen. rewrite main_iter_in_range, bind_Some_l by done.
  rewrite iter_result_length. split; [|done].
  by destruct (iter_result st).
Qed.

Lemma main_loop_run st :
  Z.of_nat (length (hp_state st)) = CN_MEMORY ->
  main_loop st = Some (N.iter 262144 loop_next (st, []))
  /\ loop_inv (N.iter 262144 loop_next (st, [])).
Proof.
  intros Hlen. unfold main_loop.
  change (Z.to_N (CN_ITER / 2)) with 262144%N.
  refine (for_n_invariant loop_inv _ loop_next _ _ (st, []) _).
  - intros [s u] Hs. apply (loop_body_step (s, u) Hs).
  - exact Hlen.
Qed.

Lemma loop_next_trace n s :
  exists used,
    snd (N.iter n loop_next s) = snd s ++ used /\
    N.of_nat (length used) = n /\
    Forall (fun js => valid_offset (fst js) /\ valid_offset (snd js)) used.
Proof.
  induction n as [|n IH] using N.peano_ind.
  - exists []. by rewrite app_nil_r.
  - rewrite N.iter_succ. destruct IH as (used & E & Hl & Hv).
    exists (used ++ [snd (iter_result (fst (N.iter n loop_next s)))]).
    unfold loop_next at 1. cbn [snd]. rewrite E, <- (assoc app).
    split; [done|]. split.
    + rewrite length_app. cbn [length]. lia.
    + apply Forall_app. split; [done|].
      apply Forall_singleton, iter_result_offsets.
Qed.

Lemma loop_next_state n s :
  fst (N.iter n loop_next s) = N.iter n (fun st => fst (iter_result st)) (fst s).
Proof.
  induction n as [|n IH] using N.peano_ind; [done|].
  rewrite !N.iter_succ. unfold loop_next at 1. cbn [fst]. by rewrite IH.
Qed.

(** *** The iteration against the specification *)

Lemma xor_block_length x y :
  length x = 16%nat -> length y = 16%nat -> length (xor_block x y) = 16%nat.
Proof. intros Hx Hy. unfold xor_block. rewrite length_zip_with. lia. Qed.

Lemma xor_block_is_byte x y :
  Forall is_byte x -> Forall is_byte y -> Forall is_byte (xor_block x y).
Proof.
  unfold xor_block. intros Hx. revert y.
  induction Hx as [|u x Hu Hx IH]; intros y Hy; [done|].
  destruct Hy as [|v y Hv Hy]; [done|]. cbn [zip_with].
  apply list.Forall_cons. split; [by apply lxor_is_byte|by apply IH].
Qed.

Lemma bytes_of_length r : length (bytes_of r) = 16%nat.
Proof. unfold bytes_of. by rewrite length_app, !u64_bytes_length. Qed.

Lemma bytes_of_is_byte r : Forall is_byte (bytes_of r).
Proof. unfold bytes_of. apply Forall_app; split; apply u64_bytes_is_byte. Qed.

Lemma words_of_block blk : words_of blk = (load64 blk 0, load64 blk 8).
Proof. unfold words_of. by rewrite load64_0. Qed.

(** The two 64-bit XORs of the code are the XOR of the blocks. *)
Lemma bytes_of_words blk :
  length blk = 16%nat -> Forall is_byte blk ->
  forall r0 r1, u64_bytes (Z.lxor (load64 blk 0) r0) ++
                u64_bytes (Z.lxor (load64 blk 8) r1)
                = xor_block blk (bytes_of (r0, r1)).
Proof.
  intros Hl Hb r0 r1. unfold xor_block, bytes_of, u64_bytes. cbn [fst snd].
  rewrite !Z_to_le_lxor by lia.
  fold (u64_bytes (load64 blk 0)) (u64_bytes (load64 blk 8)).
  rewrite load64_0. unfold load64.
  rewrite !u64_bytes_le; cycle 1.
  - rewrite length_take, length_drop. lia.
  - by apply Forall_take, Forall_drop.
  - rewrite length_take. lia.
  - by apply Forall_take.
  - rewrite <- zip_with_app
      by (rewrite length_take; fold (u64_bytes r0);
          rewrite u64_bytes_length; lia).
    by rewrite take_take_drop, take_ge by lia.
Qed.

Lemma write_block_blit P j blk :
  length blk = 16%nat -> (Z.to_nat j + 16 <= length P)%nat ->
  write_block P j blk = blit P (Z.to_nat j) blk.
Proof.
  intros Hl Hj. unfold write_block. rewrite blit_split by lia. by rewrite Hl.
Qed.

Lemma words_of_read P j :
  0 <= j ->
  words_of (read_block P j)
  = (load64 P (Z.to_nat j), load64 P (Z.to_nat (j + 8))).
Proof.
  intros Hj. unfold words_of, read_block, load64.
  set (L := drop (Z.to_nat j) P).
  assert (take 8 (take 16 L) = take 8 L) as -> by (by rewrite take_take).
  assert (take 8 (drop 8 (take 16 L)) = take 8 (drop 8 L)) as ->.
  { change (take 16 L) with (take (8 + 8) L).
    by rewrite <- take_drop_commute, take_take. }
  subst L. rewrite drop_drop.
  by replace (Z.to_nat j + 8)%nat with (Z.to_nat (j + 8)) by lia.
Qed.

Lemma iter_result_refines st :
  sp_inv st -> fst (iter_result st) = iteration st.
Proof.
  destruct st as [hp [a0 a1] [b0 b1]]. unfold sp_inv. cbn [hp_state].
  intros [Hlen Hb].
  unfold iter_result, iteration, sub_step_A, sub_step_B.
  cbn [hp_state a b fst snd].
  set (j1 := sp_index a0).
  pose proof (sp_index_bound a0) as Hj1. fold j1 in Hj1.
  unfold read_block at 1. fold (bytes_of (a0, a1)).
  set (c1 := aes_single_round _ _).
  assert (Hc1l : length c1 = 16%nat) by apply aes_single_round_length.
  assert (Hc1b : Forall is_byte c1) by apply aes_single_round_is_byte.
  rewrite words_of_block. cbn [fst snd].
  set (j2 := sp_index (load64 c1 0)).
  pose proof (sp_index_bound (load64 c1 0)) as Hj2. fold j2 in Hj2.
  rewrite (blit_two_words hp j1) by lia.
  rewrite (bytes_of_words c1 Hc1l Hc1b b0 b1).
  assert (Hlen' : (Z.to_nat j1 + 16 <= length hp)%nat /\
                  (Z.to_nat j2 + 16 <= length hp)%nat)
    by (unfold CN_MEMORY in *; lia).
  rewrite (write_block_blit hp j1)
    by (try apply xor_block_length; try apply bytes_of_length; done || lia).
  set (hp1 := blit hp (Z.to_nat j1) _).
  assert (Hl1 : length hp1 = length hp) by apply blit_length.
  assert (Hb1 : Forall is_byte hp1).
  { apply blit_is_byte; [done|].
    apply xor_block_is_byte; [done|apply bytes_of_is_byte]. }
  rewrite (words_of_read hp1 j2) by lia. cbn [fst snd].
  rewrite mul_128_exact; cycle 1.
  { apply (load64_u64 c1 0 Hc1b). lia. }
  { apply (load64_u64 hp1 _ Hb1). lia. }
  cbn [fst snd]. unfold wrap64.
  rewrite (blit_two_words hp1 j2) by lia.
  rewrite (write_block_blit hp1 j2) by (try apply bytes_of_length; lia).
  reflexivity.
Qed.

Lemma iter_result_inv st : sp_inv st -> sp_inv (fst (iter_result st)).
Proof.
  unfold sp_inv. intros [Hlen Hb]. rewrite iter_result_length.
  split; [done|]. unfold iter_result. cbn [fst hp_state].
  repeat (apply blit_is_byte; [|apply u64_bytes_is_byte]). done.
Qed.

Lemma iterations_refine n st :
  sp_inv st ->
  N.iter n (fun st => fst (iter_result st)) st = N.iter n iteration st
  /\ sp_inv (N.iter n iteration st).
Proof.
  intros Hst. induction n as [|n [IH1 IH2]] using N.peano_ind; [done|].
  rewrite !N.iter_succ, IH1, (iter_result_refines _ IH2). split; [done|].
  rewrite <- (iter_result_refines _ IH2). by apply iter_result_inv.
Qed.

(** C2. The main loop runs its body exactly 262144 times, and each run is
    sub-step A (the block at [j1] through one AES round keyed with the 16
    bytes of [a], the result XOR [b] written back at [j1]) followed by
    sub-step B (the full product of [c1[0]] and [c2_0], [hi] and [lo]
    added to [a[0]] and [a[1]] modulo 2^64, the new [a] written at [j2],
    [a] XORed with [c2], [b] set to [c1]). *)
Theorem main_loop_is_262144_iterations (st : loop_state) :
  Z.of_nat (length (hp_state st)) = CN_MEMORY ->
  Forall is_byte (hp_state st) ->
  CN_ITER / 2 = 262144 /\
  (forall st', sp_inv st' -> fst <$> main_iter st' = Some (iteration st')) /\
  fst <$> main_loop st = Some (N.iter 262144 iteration st).
Proof.
  intros Hlen Hb. split; [done|]. split.
  - intros st' Hst'. rewrite main_iter_in_range by apply Hst'.
    cbn [fmap option_fmap option_map]. by rewrite iter_result_refines.
  - destruct (main_loop_run st Hlen) as [-> _].
    cbn [fmap option_fmap option_map].
    rewrite loop_next_state. cbn [fst].
    destruct (iterations_refine 262144 st (conj Hlen Hb)) as [-> _].
    reflexivity.
Qed.

(** C5. Every offset [j1] and [j2] of every one of the 262144
    iterations is in [0, 2097152) and a multiple of 16, and the loop
    makes no access outside the scratchpad. *)
Theorem main_loop_offsets_in_bounds (st : loop_state) :
  Z.of_nat (length (hp_state st)) = CN_MEMORY ->
  exists st' used,
    main_loop st = Some (st', used) /\
    Z.of_nat (length used) = 262144 /\
    Forall (fun js => valid_offset (fst js) /\ valid_offset (snd js)) used.
Proof.
  intros Hlen. destruct (main_loop_run st Hlen) as [-> _].
  destruct (loop_next_trace 262144 (st, [])) as (used & E & Hl & Hv).
  cbn [snd app] in E.
  exists (fst (N.iter 262144 loop_next (st, []))), used.
  split; [by rewrite <- E, <- surjective_pairing|].
  split; [lia|done].
Qed.

Lemma zero_block_length : Z.of_nat (length Inputs.zero_block) = CN_MEMORY.
Proof.
  unfold Inputs.zero_block. rewrite length_replicate.
  apply Z2Nat.id. unfold CN_MEMORY. lia.
Qed.

Lemma zero_block_is_byte : Forall is_byte Inputs.zero_block.
Proof. apply Forall_replicate. unfold is_byte. lia. Qed.

Lemma main_loop_is_262144_iterations_witness :
  CN_ITER / 2 = 262144 /\
  (forall st', sp_inv st' -> fst <$> main_iter st' = Some (iteration st')) /\
  fst <$> main_loop Inputs.zero_state
  = Some (N.iter 262144 iteration Inputs.zero_state).
Proof.
  apply (main_loop_is_262144_iterations Inputs.zero_state).
  - exact zero_block_length.
  - exact zero_block_is_byte.
Defined.

Lemma main_loop_offsets_in_bounds_witness :
  exists st' used,
    main_loop Inputs.zero_state = Some (st', used) /\
    Z.of_nat (length used) = 262144 /\
    Forall (fun js => valid_offset (fst js) /\ valid_offset (snd js)) used.
Proof.
  apply (main_loop_offsets_in_bounds Inputs.zero_state).
  exact zero_block_length.
Defined.

End MainLoopProofs.

(** ** [cn_hash], [try_hash] and [cn_slow_hash] *)

Module EntryPointProofs.
Import CryptoNight SlowHash TryHashSpec Inputs MainLoopAux MainLoopProofs.

Lemma init_scratchpad_length expanded_key text hp :
  length (snd (init_scratchpad expanded_key text hp)) = length hp.
Proof.
  unfold init_scratchpad.
  apply (for_step_invariant
           (fun p : list Z * list Z => length (snd p) = length hp)); [|done].
  intros i [text' hp'] H. cbn [snd] in *. by rewrite blit_length.
Qed.

Lemma final_hash_length F st :
  stores_32_bytes F -> length (final_hash F st) = 32%nat.
Proof.
  intros HF. unfold final_hash. cbv zeta.
  destruct (HF st 200 256) as (H1 & _ & _ & _).
  destruct (HF st (200 * 8) 256) as (_ & H2 & H3 & H4).
  repeat destruct (decide _); done.
Qed.

(** The digest is what the final hash stores, whenever there is one. *)
Lemma cn_digest_final F hp input d :
  cn_digest F hp input = Some d -> exists st, d = final_hash F st.
Proof.
  unfold cn_digest. cbv zeta.
  destruct (init_scratchpad _ _ _) as [text hp'].
  destruct (main_loop _) as [[st used]|]; [|done].
  rewrite bind_Some_l. intros H. apply (inj Some) in H.
  eexists. symmetry. exact H.
Qed.

(** With a scratchpad of [CN_MEMORY] bytes the hash has no access out of
    range: there is a digest. *)
Lemma cn_digest_total F hp input :
  Z.of_nat (length hp) = CN_MEMORY -> is_Some (cn_digest F hp input).
Proof.
  intros Hlen. unfold cn_digest. cbv zeta.
  pose proof (init_scratchpad_length
                (AES.aes256_expand_key (Keccak.keccak1600 input))
                (take (Z.to_nat INIT_SIZE_BYTE)
                      (drop 64 (Keccak.keccak1600 input))) hp) as Hinit.
  destruct (init_scratchpad _ _ _) as [text hp']. cbn [snd] in Hinit.
  match goal with
  | |- context [main_loop ?s] =>
      destruct (main_loop_run s) as [-> _]; [cbn [hp_state]; lia|]
  end.
  rewrite bind_Some_l. destruct (N.iter _ _ _) as [st used].
  eexists. reflexivity.
Qed.


Lemma mem_read_write m p bs (off n : nat) :
  (off + n <= length bs)%nat ->
  mem_read (mem_write m p bs) (p + Z.of_nat off) n = take n (drop off bs).
Proof.
  intros H. unfold mem_read. apply list_eq. intros i.
  rewrite list_lookup_fmap.
  destruct (decide (i < n)%nat) as [Hi|Hi].
  - rewrite lookup_seq_lt, lookup_take_lt, lookup_drop by done. cbn.
    unfold mem_write. rewrite decide_True by lia.
    match goal with
    | |- context [Z.to_nat ?e] =>
        replace (Z.to_nat e) with (off + i)%nat by lia
    end.
    unfold at_. symmetry. apply list_lookup_lookup_total_lt. lia.
  - rewrite lookup_seq_ge, lookup_take_ge by lia. done.
Qed.

Lemma mem_read_length m p n : length (mem_read m p n) = n.
Proof. unfold mem_read. by rewrite length_fmap, length_seq. Qed.

(** *** The bytes that [try_hash] hashes *)

Lemma nonce_bytes nonce :
  Z_to_little_endian 4 8 nonce
  = [ wrap8 (Z.land nonce 0xFF);
      wrap8 (Z.land (Z.shiftr nonce 8) 0xFF);
      wrap8 (Z.land (Z.shiftr nonce 16) 0xFF);
      wrap8 (Z.land (Z.shiftr nonce 24) 0xFF) ].
Proof.
  change 4 with (Z.succ (Z.succ (Z.succ (Z.succ 0)))).
  rewrite !Z_to_little_endian_succ, Z_to_little_endian_0 by lia.
  rewrite !Z.shiftr_shiftr by lia. change (Z.ones 8) with 255.
  by rewrite !(wrap8_byte _ (land_255_is_byte _)).
Qed.

Lemma four_inserts (l : list Z) (i : nat) (x0 x1 x2 x3 : Z) :
  (i + 4 <= length l)%nat ->
  <[ S (S (S i)) := x3 ]> (<[ S (S i) := x2 ]> (<[ S i := x1 ]> (<[ i := x0 ]> l)))
  = take i l ++ [x0; x1; x2; x3] ++ drop (i + 4) l.
Proof.
  intros H. transitivity (blit l i [x0; x1; x2; x3]);
    [|by rewrite blit_split].
  unfold blit. cbn [list_inserts].
  rewrite (list_insert_insert_ne _ (S (S (S i))) (S (S i))) by lia.
  rewrite (list_insert_insert_ne _ (S (S (S i))) (S i)) by lia.
  rewrite (list_insert_insert_ne _ (S (S (S i))) i) by lia.
  rewrite (list_insert_insert_ne _ (S (S i)) (S i)) by lia.
  rewrite (list_insert_insert_ne _ (S (S i)) i) by lia.
  rewrite (list_insert_insert_ne _ (S i) i) by lia.
  done.
Qed.

Lemma try_hash_input_accepted m blob blob_len nonce :
  blob_len <= 256 -> hashes_blob_with_nonce m blob blob_len nonce.
Proof.
  intros Hlen. unfold hashes_blob_with_nonce, try_hash_input, with_nonce.
  rewrite decide_False by lia. f_equal.
  set (bs := mem_read m blob (Z.to_nat blob_len)).
  assert (Hbs : length bs = Z.to_nat blob_len) by apply mem_read_length.
  unfold blit.
  assert (replicate 256 0
          = replicate (length bs) 0 ++ replicate (256 - length bs) 0) as ->.
  { rewrite <- replicate_add. f_equal. lia. }
  rewrite list_inserts_0_r by (by rewrite length_replicate).
  destruct (decide (43 <= blob_len)) as [Hn|Hn].
  - rewrite decide_True by lia.
    rewrite !insert_app_l by (rewrite ?length_insert; lia).
    rewrite take_app_length' by (rewrite ?length_insert; lia).
    rewrite (four_inserts bs 39) by lia.
    by rewrite nonce_bytes.
  - rewrite decide_False by lia.
    by rewrite take_app_length' by lia.
Qed.

(** *** The length that [try_hash] refuses *)

Lemma try_hash_input_refused m blob blob_len nonce :
  256 < blob_len -> try_hash_input m blob blob_len nonce = None.
Proof. intros H. unfold try_hash_input. by rewrite decide_True by lia. Qed.

Lemma try_hash_refused F malloc m blob blob_len nonce target out_hash :
  256 < blob_len ->
  try_hash F malloc m blob blob_len nonce target out_hash = Some (0, m).
Proof.
  intros H. unfold try_hash.
  rewrite (try_hash_input_refused m blob blob_len nonce H). reflexivity.
Qed.

(** *** What [try_hash] writes *)


Lemma try_hash_accepted F hp m blob blob_len nonce target out_hash :
  stores_32_bytes F -> Z.of_nat (length hp) = CN_MEMORY ->
  blob_len <= 256 ->
  hashes_and_compares F hp m blob blob_len nonce target out_hash.
Proof.
  intros HF Hhp Hlen. unfold hashes_and_compares.
  destruct (cn_digest_total F hp
              (with_nonce (mem_read m blob (Z.to_nat blob_len)) nonce) Hhp)
    as [d Hd].
  destruct (cn_digest_final _ _ _ _ Hd) as [st Est].
  assert (Hl : length d = 32%nat) by (rewrite Est; by apply final_hash_length).
  exists d, (if decide (le_to_Z (take 8 (drop 24 d)) < target) then 1 else 0).
  split; [done|]. split; [done|]. split; [|split].
  - unfold try_hash.
    rewrite (try_hash_input_accepted m blob blob_len nonce Hlen).
    unfold cn_hash. rewrite Hd, !bind_Some_l.
    change (out_hash + 24) with (out_hash + Z.of_nat 24).
    by rewrite (mem_read_write m out_hash d 24 8) by lia.
  - rewrite <- (Z.add_0_r out_hash) at 2.
    change 0 with (Z.of_nat 0) at 1.
    rewrite (mem_read_write m out_hash d 0 32) by lia.
    rewrite drop_0. apply take_ge. lia.
  - destruct (decide _); split; intros; lia.
Qed.

Lemma zero_finalizers_store_32 : stores_32_bytes zero_finalizers.
Proof. intros st n bits. by repeat split. Qed.

(** *** Allocation failure *)

(** C7, as the code has it. When [malloc] fails, [cn_hash] returns
    without an error value (it returns [void]), produces no digest and
    writes nothing: the caller's memory, the output buffer included, is
    what it was. *)
Theorem cn_hash_alloc_failure_writes_nothing
        (F : finalizers) (input : list Z) (m : mem) (output : Z) :
  exists m',
    cn_hash F None input m output = Some m' /\
    (forall addr, m' addr = m addr) /\
    mem_read m' output 32 = mem_read m output 32.
Proof. by exists m. Qed.

(** C7, as stated, fails: the failure does not reach the caller. After a
    failed allocation [cn_hash] returns like any other call, and
    [try_hash], its caller, goes on to read the untouched output buffer
    and reports a hash below the target. *)
Lemma alloc_failure_not_surfaced :
  cn_hash zero_finalizers None [] zero_mem 1000 = Some zero_mem /\
  try_hash zero_finalizers None zero_mem 0 0 0 1 1000 = Some (1, zero_mem).
Proof. split; reflexivity. Qed.

(** *** [try_hash] *)

(** C8, as the code has it. For a blob of at most 256 bytes, and when
    the scratchpad is allocated, [try_hash] stores the 32 bytes of the
    digest at [out_hash] and returns non-zero exactly when the
    little-endian 64-bit word in bytes 24..31 of that digest is below
    the target. For a length above 256 no input is handed to [cn_hash],
    and the call returns 0 and leaves the memory as it was, whatever
    the final hash functions and [malloc] would have done. *)
Theorem try_hash_writes_digest_and_compares
        (F : finalizers) (hp : list Z) (m : mem)
        (blob blob_len nonce target out_hash : Z) :
  stores_32_bytes F -> Z.of_nat (length hp) = CN_MEMORY ->
  (blob_len <= 256 ->
   hashes_and_compares F hp m blob blob_len nonce target out_hash) /\
  (256 < blob_len ->
   try_hash_input m blob blob_len nonce = None /\
   forall F' malloc,
     try_hash F' malloc m blob blob_len nonce target out_hash = Some (0, m)).
Proof.
  intros HF Hhp. split.
  - intros Hlen. by apply try_hash_accepted.
  - intros Hlen. split; [by apply try_hash_input_refused|].
    intros F' malloc. by apply try_hash_refused.
Qed.

Lemma try_hash_writes_digest_and_compares_witness :
  hashes_and_compares zero_finalizers zero_block zero_mem
                      0 76 7 (2 ^ 64 - 1) 1000 /\
  (try_hash_input zero_mem 0 257 7 = None /\
   forall F' malloc,
     try_hash F' malloc zero_mem 0 257 7 (2 ^ 64 - 1) 1000
     = Some (0, zero_mem)).
Proof.
  split.
  - apply (try_hash_writes_digest_and_compares
             zero_finalizers zero_block zero_mem 0 76 7 (2 ^ 64 - 1) 1000
             zero_finalizers_store_32 zero_block_length).
    lia.
  - apply (try_hash_writes_digest_and_compares
             zero_finalizers zero_block zero_mem 0 257 7 (2 ^ 64 - 1) 1000
             zero_finalizers_store_32 zero_block_length).
    lia.
Defined.

(** C8, as stated, fails on a blob of 257 bytes: the call returns 0 and
    writes nothing, so the output buffer keeps its zeros, whose word is
    below the target 1. *)
Lemma try_hash_257_bytes_writes_nothing :
  ~ hashes_and_compares zero_finalizers zero_block zero_mem 0 257 0 1 1000.
Proof.
  intros (d & ret & _ & _ & Hrun & Hread & Hiff).
  unfold try_hash, try_hash_input in Hrun.
  rewrite decide_True in Hrun by lia.
  apply (inj Some), pair_equal_spec in Hrun as [<- Hm].
  rewrite <- Hm in Hread. rewrite <- Hread in Hiff.
  apply Hiff; [|done]. by vm_compute.
Qed.



(** The bytes hashed for a blob of 76 zeros and the nonce 0x04030201. *)
Example with_nonce_76 :
  with_nonce (replicate 76 0) 0x04030201
  = replicate 39 0 ++ [1; 2; 3; 4] ++ replicate 33 0.
Proof. reflexivity. Qed.

(** *** [cn_slow_hash] *)

(** C10. With a variant other than 0, [cn_slow_hash] fails with
    [UnsupportedVariant] and the caller's memory, the output buffer
    included, is what it was. *)
Theorem cn_slow_hash_rejects_other_variants
        (F : finalizers) (malloc : option (list Z)) (data : list Z)
        (m : mem) (hash variant prehashed height : Z) :
  variant <> 0 ->
  cn_slow_hash F malloc data m hash variant prehashed height
  = Some (Failed UnsupportedVariant, m).
Proof. intros Hv. unfold cn_slow_hash. by rewrite decide_False. Qed.

Lemma cn_slow_hash_rejects_other_variants_witness :
  cn_slow_hash zero_finalizers (Some zero_block) [] zero_mem 1000 1 0 0
  = Some (Failed UnsupportedVariant, zero_mem).
Proof. apply cn_slow_hash_rejects_other_variants. lia. Defined.

End EntryPointProofs.

(** ** Loops by index, and segments of a buffer *)

Module LoopProofs.

Section LoopIndex.
Context {S : Type}.

Lemma for_step_count_bound (lo hi step : Z) (k : N) :
  0 < step -> (k < Z.to_N ((hi - lo + step - 1) / step))%N ->
  lo + step * Z.of_N k < hi.
Proof.
  intros Hs Hk.
  assert (0 <= Z.of_N k < (hi - lo + step - 1) / step) as [H0 H1] by lia.
  assert (Z.of_N k + 1 <= (hi - lo + step - 1) / step) as H2 by lia.
  pose proof (Z.mul_div_le (hi - lo + step - 1) step Hs) as H3.
  nia.
Qed.

(** [Inv i s] holds of the index and the state at the head of every
    iteration, and of the final ones. *)
Lemma for_step_ind (Inv : Z -> S -> Prop) (lo hi step : Z)
      (body : Z -> S -> S) (s : S) :
  0 < step -> Inv lo s ->
  (forall k i s, i = lo + step * Z.of_N k -> i < hi ->
                 Inv i s -> Inv (i + step) (body i s)) ->
  Inv (lo + step * Z.of_N (Z.to_N ((hi - lo + step - 1) / step)))
      (for_step lo hi step body s).
Proof.
  intros Hs H0 Hstep. unfold for_step.
  set (cnt := Z.to_N ((hi - lo + step - 1) / step)).
  set (f := fun '(i, s) => (i + step, body i s)).
  assert (forall k, (k <= cnt)%N ->
                    fst (N.iter k f (lo, s)) = lo + step * Z.of_N k /\
                    Inv (lo + step * Z.of_N k) (snd (N.iter k f (lo, s)))) as H.
  { intros k. induction k as [|k IH] using N.peano_ind; intros Hk.
    - cbn. rewrite Z.mul_0_r, Z.add_0_r. done.
    - rewrite N.iter_succ. destruct IH as [E I]; [lia|].
      destruct (N.iter k f (lo, s)) as [i s']. cbn [fst snd] in *. subst i.
      cbn [f fst snd]. split; [lia|].
      replace (lo + step * Z.of_N (N.succ k))
        with (lo + step * Z.of_N k + step) by lia.
      apply (Hstep k); [done| |done].
      apply for_step_count_bound; [done|]. fold cnt. lia. }
  apply H. lia.
Qed.
End LoopIndex.

Section LoopExt.
Context {S : Type}.

Lemma for_step_ext (Inv : S -> Prop) (lo hi step : Z)
      (body body' : Z -> S -> S) (s : S) :
  0 < step -> Inv s ->
  (forall k i s, i = lo + step * Z.of_N k -> i < hi -> Inv s ->
                 body i s = body' i s /\ Inv (body' i s)) ->
  for_step lo hi step body s = for_step lo hi step body' s
  /\ Inv (for_step lo hi step body' s).
Proof.
  intros Hs H0 Hstep. unfold for_step.
  set (cnt := Z.to_N ((hi - lo + step - 1) / step)).
  set (f := fun '(i, s) => (i + step, body i s)).
  set (f' := fun '(i, s) => (i + step, body' i s)).
  assert (forall k, (k <= cnt)%N ->
                    N.iter k f (lo, s) = N.iter k f' (lo, s) /\
                    fst (N.iter k f' (lo, s)) = lo + step * Z.of_N k /\
                    Inv (snd (N.iter k f' (lo, s)))) as H.
  { intros k. induction k as [|k IH] using N.peano_ind; intros Hk.
    - cbn. split; [done|]. split; [lia|done].
    - rewrite !N.iter_succ. destruct IH as (E1 & E2 & I); [lia|].
      rewrite E1.
      destruct (N.iter k f' (lo, s)) as [i s']. cbn [fst snd] in *. subst i.
      cbn [f f' fst snd].
      destruct (Hstep k (lo + step * Z.of_N k) s') as [Eb Ib]; [done| |done|].
      { apply for_step_count_bound; [done|]. fold cnt. lia. }
      rewrite Eb. split; [done|]. split; [lia|done]. }
  destruct (H cnt) as (E & _ & I); [lia|]. by rewrite E.
Qed.
End LoopExt.

Section Segments.
Implicit Types (h T : list Z) (j off n : nat).

Lemma blit_lookup_lt h j T x : (x < j)%nat -> blit h j T !! x = h !! x.
Proof. intros. unfold blit. by apply list_lookup_inserts_lt. Qed.

Lemma blit_lookup_ge h j T x :
  (j + length T <= x)%nat -> blit h j T !! x = h !! x.
Proof. intros. unfold blit. by apply list_lookup_inserts_ge. Qed.

Lemma blit_lookup_in h j T x :
  (j <= x < j + length T)%nat -> (x < length h)%nat ->
  blit h j T !! x = T !! (x - j)%nat.
Proof. intros. unfold blit. apply list_lookup_inserts; lia. Qed.

Lemma seg_blit_before h j T off n :
  (off + n <= j)%nat -> take n (drop off (blit h j T)) = take n (drop off h).
Proof.
  intros H. apply list_eq. intros x.
  destruct (decide (x < n)%nat).
  - rewrite !lookup_take_lt, !lookup_drop by done. apply blit_lookup_lt. lia.
  - by rewrite !lookup_take_ge by lia.
Qed.

Lemma seg_blit_after h j T off n :
  (j + length T <= off)%nat ->
  take n (drop off (blit h j T)) = take n (drop off h).
Proof.
  intros H. apply list_eq. intros x.
  destruct (decide (x < n)%nat).
  - rewrite !lookup_take_lt, !lookup_drop by done. apply blit_lookup_ge. lia.
  - by rewrite !lookup_take_ge by lia.
Qed.

Lemma seg_blit_at h j T :
  (j + length T <= length h)%nat -> take (length T) (drop j (blit h j T)) = T.
Proof.
  intros H. rewrite blit_split by done.
  rewrite drop_app_length' by (rewrite length_take; lia).
  by rewrite take_app_length.
Qed.

(** Two lists of [n] chunks of [c] bytes with the same chunks are equal. *)
Lemma chunks_ext (c n : nat) h h' :
  length h = (c * n)%nat -> length h' = (c * n)%nat ->
  (forall k, (k < n)%nat ->
             take c (drop (c * k) h) = take c (drop (c * k) h')) ->
  h = h'.
Proof.
  intros Hl Hl' Hc. apply list_eq. intros x.
  destruct (decide (x < c * n)%nat) as [Hx|Hx].
  - assert (0 < c)%nat as Hc0 by lia.
    pose proof (Nat.div_mod_eq x c) as Hdm.
    pose proof (Nat.mod_upper_bound x c ltac:(lia)) as Hm.
    assert (x / c < n)%nat as Hk.
    { apply Nat.Div0.div_lt_upper_bound. lia. }
    pose proof (Hc (x / c)%nat Hk) as E.
    apply (f_equal (fun l => l !! (x mod c)%nat)) in E.
    rewrite !lookup_take_lt, !lookup_drop in E by done.
    by replace (c * (x / c) + x mod c)%nat with x in E by lia.
  - by rewrite !lookup_ge_None_2 by lia.
Qed.
End Segments.

End LoopProofs.

(** ** 64-bit words *)

Module WordProofs.
Import AES.

Section U64.
Lemma u64_mod x : is_u64 x <-> x mod 2 ^ 64 = x.
Proof.
  unfold is_u64. split; intros H.
  - apply Z.mod_small. lia.
  - rewrite <- H. apply Z.mod_pos_bound. lia.
Qed.

Lemma wrap64_is_u64 x : is_u64 (wrap64 x).
Proof. unfold is_u64, wrap64. apply Z.mod_pos_bound. lia. Qed.

Lemma lxor_is_u64 x y : is_u64 x -> is_u64 y -> is_u64 (Z.lxor x y).
Proof.
  rewrite !u64_mod. intros Hx Hy.
  by rewrite lxor_mod_pow2, Hx, Hy by lia.
Qed.

Lemma land_is_u64 x y : is_u64 x -> is_u64 (Z.land x y).
Proof.
  rewrite !u64_mod. intros Hx. apply Z.bits_inj'. intros i Hi.
  rewrite Z.testbit_mod_pow2, !Z.land_spec by lia.
  rewrite <- Hx at 2. rewrite Z.testbit_mod_pow2 by lia.
  by destruct (i <? 64).
Qed.

Lemma lor_is_u64 x y : is_u64 x -> is_u64 y -> is_u64 (Z.lor x y).
Proof.
  rewrite !u64_mod. intros Hx Hy. apply Z.bits_inj'. intros i Hi.
  rewrite Z.testbit_mod_pow2, !Z.lor_spec by lia.
  rewrite <- Hx at 2. rewrite <- Hy at 2. rewrite !Z.testbit_mod_pow2 by lia.
  by destruct (i <? 64).
Qed.
End U64.

Lemma load64_is_u64 bs off : Forall is_byte bs -> is_u64 (load64 bs off).
Proof.
  intros Hb. unfold load64, le_to_Z, is_u64.
  assert (Forall is_byte (take 8 (drop off bs))) as Hb'
    by by apply Forall_take, Forall_drop.
  pose proof (little_endian_to_Z_bound 8 (take 8 (drop off bs))
                ltac:(lia) Hb') as H.
  assert (length (take 8 (drop off bs)) <= 8)%nat as Hl
    by (rewrite length_take; lia).
  split; [lia|]. eapply Z.lt_le_trans; [apply H|].
  apply Z.pow_le_mono_r; lia.
Qed.

Lemma at_take_drop (l : list Z) (off n i : nat) :
  (i < n)%nat -> at_ (take n (drop off l)) i = at_ l (off + i).
Proof.
  intros H. unfold at_.
  rewrite !list_lookup_total_alt, lookup_take_lt, lookup_drop by done. done.
Qed.

Lemma length4 {A} (l : list A) :
  length l = 4%nat -> exists x0 x1 x2 x3, l = [x0; x1; x2; x3].
Proof.
  intros H. do 4 (destruct l as [|? l]; [discriminate H|]).
  destruct l; [|discriminate H]. by repeat eexists.
Qed.

Lemma four_inserts_blit (l : list Z) (i : nat) (x0 x1 x2 x3 : Z) :
  <[ S (S (S i)) := x3 ]> (<[ S (S i) := x2 ]> (<[ S i := x1 ]> (<[ i := x0 ]> l)))
  = blit l i [x0; x1; x2; x3].
Proof.
  unfold blit. cbn [list_inserts].
  rewrite (list_insert_insert_ne _ (S (S (S i))) (S (S i))) by lia.
  rewrite (list_insert_insert_ne _ (S (S (S i))) (S i)) by lia.
  rewrite (list_insert_insert_ne _ (S (S (S i))) i) by lia.
  rewrite (list_insert_insert_ne _ (S (S i)) (S i)) by lia.
  rewrite (list_insert_insert_ne _ (S (S i)) i) by lia.
  rewrite (list_insert_insert_ne _ (S i) i) by lia.
  done.
Qed.

Lemma at_insert_ne (l : list Z) (i j : nat) (x : Z) :
  i <> j -> at_ (<[ i := x ]> l) j = at_ l j.
Proof. intros. unfold at_. by apply list_lookup_total_insert_ne. Qed.

Lemma at_is_byte (l : list Z) (i : nat) : Forall is_byte l -> is_byte (at_ l i).
Proof.
  intros H. unfold at_. destruct (decide (i < length l)%nat).
  - rewrite Forall_lookup_total in H. by apply H.
  - rewrite list_lookup_total_alt, lookup_ge_None_2 by lia.
    cbn. unfold is_byte. lia.
Qed.

Lemma rcon_is_byte i : is_byte (at_ rcon i).
Proof.
  apply at_is_byte. apply (bool_decide_unpack _). vm_compute. exact I.
Qed.

Lemma at_take (l : list Z) (n i : nat) :
  (i < n)%nat -> at_ (take n l) i = at_ l i.
Proof.
  intros H. unfold at_. by rewrite !list_lookup_total_alt, lookup_take_lt.
Qed.

Lemma fmap_seq_ext {A} (f g : nat -> A) (n : nat) :
  (forall i : nat, (i < n)%nat -> f i = g i) -> f <$> seq 0 n = g <$> seq 0 n.
Proof.
  intros H. apply Forall_fmap_ext_1, list.Forall_forall.
  intros i Hi. apply elem_of_seq in Hi. apply H. lia.
Qed.

End WordProofs.

(** ** The lanes of the Keccak state *)

Module KeccakLaneProofs.
Import Keccak KeccakSpec KeccakProofs WordProofs.

Section Rotation.
Lemma pow2_split y : 0 < y < 64 -> 2 ^ 64 = 2 ^ (64 - y) * 2 ^ y.
Proof. intros. rewrite <- Z.pow_add_r by lia. f_equal. lia. Qed.

Lemma ROTL64_rotates x y :
  is_u64 x -> 0 < y < 64 ->
  ROTL64 x y = (x mod 2 ^ (64 - y)) * 2 ^ y + x / 2 ^ (64 - y).
Proof.
  unfold is_u64. intros Hx Hy. unfold ROTL64, wrap64.
  rewrite Z.shiftl_mul_pow2, Z.shiftr_div_pow2 by lia.
  rewrite (pow2_split y Hy) at 1.
  rewrite Z.mul_mod_distr_r by lia.
  apply lor_disjoint; [lia|].
  split; [apply Z.div_pos; lia|].
  apply Z.div_lt_upper_bound; [lia|]. rewrite <- pow2_split by done. lia.
Qed.

Lemma ROTL64_is_u64 x y : is_u64 x -> 0 < y < 64 -> is_u64 (ROTL64 x y).
Proof.
  intros Hx Hy. rewrite ROTL64_rotates by done. unfold is_u64 in *.
  pose proof (Z.mod_pos_bound x (2 ^ (64 - y)) ltac:(lia)) as Hl.
  assert (0 <= x / 2 ^ (64 - y) < 2 ^ y) as Hh.
  { split; [apply Z.div_pos; lia|].
    apply Z.div_lt_upper_bound; [lia|]. rewrite <- pow2_split by done. lia. }
  rewrite (pow2_split y Hy). nia.
Qed.

(** X1. [ROTL64] is a rotation: on a 64-bit word and for a count strictly
    between 0 and 64, rotating left by [y] and then by [64 - y] gives
    the word back. *)
Theorem ROTL64_inverse x y :
  is_u64 x -> 0 < y < 64 -> ROTL64 (ROTL64 x y) (64 - y) = x.
Proof.
  intros Hx Hy.
  rewrite (ROTL64_rotates (ROTL64 x y)) by (by apply ROTL64_is_u64 || lia).
  rewrite (ROTL64_rotates x y) by done.
  replace (64 - (64 - y)) with y by lia.
  unfold is_u64 in Hx.
  pose proof (Z.mod_pos_bound x (2 ^ (64 - y)) ltac:(lia)) as Hl.
  assert (0 <= x / 2 ^ (64 - y) < 2 ^ y) as Hh.
  { split; [apply Z.div_pos; lia|].
    apply Z.div_lt_upper_bound; [lia|]. rewrite <- pow2_split by done. lia. }
  set (l := x mod 2 ^ (64 - y)) in *. set (h := x / 2 ^ (64 - y)) in *.
  assert ((l * 2 ^ y + h) mod 2 ^ y = h) as ->.
  { rewrite Z.add_comm, Z.mod_add by lia. apply Z.mod_small. lia. }
  assert ((l * 2 ^ y + h) / 2 ^ y = l) as ->.
  { rewrite Z.add_comm, Z.div_add by lia. rewrite Z.div_small by lia. lia. }
  subst l h. pose proof (Z.div_mod x (2 ^ (64 - y)) ltac:(lia)). lia.
Qed.
End Rotation.

Lemma ROTL64_inverse_witness : ROTL64 (ROTL64 0x8000000000000001 1) (64 - 1)
                               = 0x8000000000000001.
Proof. apply ROTL64_inverse; [unfold is_u64; lia|lia]. Defined.

Section KeccakLanes.

Lemma foldl_invariant {A B} (P : A -> Prop) (f : A -> B -> A) (l : list B) s :
  (forall s i, i ∈ l -> P s -> P (f s i)) -> P s -> P (foldl f s l).
Proof.
  revert s. induction l as [|x l IH]; intros s Hf Hs; [done|]. cbn [foldl].
  apply IH.
  - intros s' i Hi. apply Hf. by right.
  - apply Hf; [by left|done].
Qed.

Lemma at_is_u64 st i : Forall is_u64 st -> is_u64 (at_ st i).
Proof.
  intros H. unfold at_. destruct (decide (i < length st)%nat).
  - rewrite Forall_lookup_total in H. by apply H.
  - rewrite list_lookup_total_alt, lookup_ge_None_2 by lia.
    cbn. unfold is_u64. lia.
Qed.

Lemma xor_at_is_u64 st i v :
  Forall is_u64 st -> is_u64 v -> Forall is_u64 (xor_at st i v).
Proof.
  intros Hs Hv. unfold xor_at. apply Forall_insert; [done|].
  apply lxor_is_u64; [by apply at_is_u64|done].
Qed.

Lemma theta_is_u64 st : Forall is_u64 st -> Forall is_u64 (theta st).
Proof.
  intros Hs. unfold theta. cbv zeta.
  set (bc := _ <$> seq 0 5).
  assert (Hbc : Forall is_u64 bc).
  { subst bc. apply Forall_fmap, Forall_true. intros i. cbn.
    repeat apply lxor_is_u64; by apply at_is_u64. }
  apply (foldl_invariant (Forall is_u64)); [|done].
  intros s i _ Hs'.
  apply (foldl_invariant (Forall is_u64)); [|done].
  intros s'' j _ Hs''. apply xor_at_is_u64; [done|].
  apply lxor_is_u64; [by apply at_is_u64|].
  apply ROTL64_is_u64; [by apply at_is_u64|lia].
Qed.

Lemma rotc_in_range :
  Forall (fun i : nat => 0 < rotc !!! i < 64) (seq 0 24).
Proof. apply (bool_decide_unpack _). vm_compute. exact I. Qed.

Lemma rho_pi_is_u64 st : Forall is_u64 st -> Forall is_u64 (rho_pi st).
Proof.
  intros Hs. unfold rho_pi.
  apply (foldl_invariant
           (fun p : list Z * Z => Forall is_u64 (fst p) /\ is_u64 (snd p)));
    [|split; [done|by apply at_is_u64]].
  intros [s t] i Hi [Hs' Ht]. cbn [fst snd] in *. split.
  - apply Forall_insert; [done|]. apply ROTL64_is_u64; [done|].
    pose proof rotc_in_range as H. rewrite list.Forall_forall in H. by apply H.
  - by apply at_is_u64.
Qed.

Lemma chi_is_u64 st : Forall is_u64 st -> Forall is_u64 (chi st).
Proof.
  intros Hs. unfold chi.
  apply (foldl_invariant (Forall is_u64)); [|done].
  intros s j _ Hs'. cbv zeta.
  set (tmp := _ <$> seq 0 5).
  assert (Htmp : Forall is_u64 tmp).
  { subst tmp. apply Forall_fmap, Forall_true. intros i. by apply at_is_u64. }
  apply (foldl_invariant (Forall is_u64)); [|done].
  intros s' i _ Hs''. apply Forall_insert; [done|].
  apply lxor_is_u64; [by apply at_is_u64|].
  apply land_is_u64, wrap64_is_u64.
Qed.

Lemma keccak_rc_is_u64 : Forall is_u64 keccak_rc.
Proof. apply (bool_decide_unpack _). vm_compute. exact I. Qed.

Lemma keccakf_is_u64 st : Forall is_u64 st -> Forall is_u64 (keccakf st).
Proof.
  intros Hs. unfold keccakf.
  apply (foldl_invariant (Forall is_u64)); [|done].
  intros s r _ Hs'. unfold keccak_round, iota.
  apply xor_at_is_u64.
  - by apply chi_is_u64, rho_pi_is_u64, theta_is_u64.
  - apply at_is_u64, keccak_rc_is_u64.
Qed.

Lemma load64_app_l v rest :
  is_u64 v -> load64 (u64_bytes v ++ rest) 0 = v.
Proof.
  intros Hv. unfold load64. rewrite drop_0.
  rewrite take_app_length' by apply (u64_bytes_length v).
  unfold le_to_Z, u64_bytes.
  rewrite little_endian_to_Z_to_little_endian by lia.
  apply Z.mod_small. exact Hv.
Qed.

Lemma load64_app_r v rest (i : nat) :
  load64 (u64_bytes v ++ rest) (S i * 8) = load64 rest (i * 8).
Proof.
  unfold load64.
  replace (S i * 8)%nat with (length (u64_bytes v) + i * 8)%nat
    by (rewrite u64_bytes_length; lia).
  by rewrite drop_app_add.
Qed.

(** The 25 lanes written out as 200 bytes are read back as they were. *)
Lemma lanes_bytes_lanes st :
  Forall is_u64 st ->
  (fun i : nat => load64 (st ≫= u64_bytes) (i * 8)) <$> seq 0 (length st) = st.
Proof.
  induction 1 as [|v st Hv Hst IH]; [done|].
  rewrite bind_cons. cbn [length seq fmap list_fmap].
  rewrite load64_app_l by done. f_equal.
  rewrite <- fmap_S_seq, <- list_fmap_compose.
  rewrite <- IH at 2. apply list_fmap_ext. intros _ i _. cbn.
  apply load64_app_r.
Qed.
End KeccakLanes.

(** X2. [keccakf] keeps the 25 lanes 64-bit words: the shifts of the
    rotations and the complement in chi do not leave the word size. *)
Theorem keccakf_keeps_lanes_64_bit st :
  Forall is_u64 st -> Forall is_u64 (keccakf st).
Proof. apply keccakf_is_u64. Qed.

Lemma keccakf_keeps_lanes_64_bit_witness :
  Forall is_u64 (keccakf (replicate 25 0)).
Proof.
  apply keccakf_keeps_lanes_64_bit.
  apply Forall_replicate. unfold is_u64. lia.
Defined.

Lemma xor_in_is_u64 st blk :
  Forall is_u64 st -> Forall is_byte blk -> Forall is_u64 (xor_in st blk).
Proof.
  intros Hs Hb. unfold xor_in.
  apply (foldl_invariant (Forall is_u64)); [|done].
  intros s i _ Hs'. apply xor_at_is_u64; [done|]. by apply load64_is_u64.
Qed.

Lemma reshape_is_byte (ns : list nat) (l : list Z) :
  Forall is_byte l -> Forall (Forall is_byte) (reshape ns l).
Proof.
  revert l. induction ns as [|n ns IH]; intros l Hl; [done|].
  cbn [reshape]. apply Forall_cons_2.
  - by apply Forall_take.
  - by apply IH, Forall_drop.
Qed.

Lemma padding_is_byte n : Forall is_byte (padding n).
Proof.
  unfold padding. cbv zeta. destruct (decide _).
  - apply Forall_cons_2; [unfold is_byte; lia|done].
  - apply Forall_app. split; [apply Forall_cons_2; [unfold is_byte; lia|done]|].
    apply Forall_app. split.
    + apply Forall_replicate. unfold is_byte. lia.
    + apply Forall_cons_2; [unfold is_byte; lia|done].
Qed.

Lemma absorbed_lanes (bl : list (list Z)) st :
  Forall (Forall is_byte) bl -> length st = 25%nat -> Forall is_u64 st ->
  length (foldl absorb_block st bl) = 25%nat
  /\ Forall is_u64 (foldl absorb_block st bl).
Proof.
  intros Hbl. revert st.
  induction Hbl as [|blk bl Hblk Hbl IH]; intros st Hl Hs; [done|].
  cbn [foldl]. apply IH.
  - by apply absorb_block_length.
  - rewrite absorb_block_code by exact Hl.
    by apply keccakf_is_u64, xor_in_is_u64.
Qed.

(** X3. For a message of bytes, the 200 bytes that [keccak1600] copies
    out are the 25 lanes of the state after the last block of the
    sponge, [final_lanes], each a 64-bit word stored little-endian, and
    reading them back eight bytes at a time, as [cn_hash] does, gives
    those lanes. *)
Theorem keccak1600_emits_lanes (inp : list Z) :
  Forall is_byte inp ->
  length (final_lanes inp) = 25%nat /\
  Forall is_u64 (final_lanes inp) /\
  keccak1600 inp = final_lanes inp ≫= u64_bytes /\
  (fun i : nat => load64 (keccak1600 inp) (i * 8)) <$> seq 0 25
  = final_lanes inp.
Proof.
  intros Hb.
  destruct (absorbed_lanes (blocks (inp ++ padding (length inp)))
                           (replicate 25 0)) as [Hl Hu].
  { apply reshape_is_byte, Forall_app. split; [done|apply padding_is_byte]. }
  { apply length_replicate. }
  { apply Forall_replicate. unfold is_u64. lia. }
  fold (final_lanes inp) in Hl, Hu.
  split; [exact Hl|]. split; [exact Hu|].
  rewrite keccak1600_refines. unfold sponge. split; [reflexivity|].
  rewrite <- Hl at 1. by apply lanes_bytes_lanes.
Qed.

Lemma keccak1600_emits_lanes_witness :
  length (final_lanes []) = 25%nat /\
  Forall is_u64 (final_lanes []) /\
  keccak1600 [] = final_lanes [] ≫= u64_bytes /\
  (fun i : nat => load64 (keccak1600 []) (i * 8)) <$> seq 0 25
  = final_lanes [].
Proof. apply keccak1600_emits_lanes. apply Forall_nil_2. Defined.

End KeccakLaneProofs.

(** ** [aes256_expand_key] *)

Module KeyScheduleProofs.
Import AES AESProofs KeyScheduleSpec ScratchpadAux LoopProofs WordProofs.

Lemma sub_word_is_byte t : Forall is_byte (sub_word t).
Proof. apply Forall_fmap, Forall_true. intros x. apply sbox_is_byte. Qed.

Lemma schedule_temp_is_byte n t :
  Forall is_byte t -> length t = 4%nat -> Forall is_byte (schedule_temp n t).
Proof.
  intros Hb Hl. unfold schedule_temp.
  destruct (decide (n mod 32 = 0)); [|destruct (decide (n mod 32 = 16))].
  - destruct (length4 t Hl) as (t0&t1&t2&t3&->). cbn.
    repeat constructor; apply lxor_is_byte;
      auto using sbox_is_byte, rcon_is_byte; unfold is_byte; lia.
  - apply sub_word_is_byte.
  - done.
Qed.

Lemma schedule_temp_length n t :
  length t = 4%nat -> length (schedule_temp n t) = 4%nat.
Proof.
  intros Hl. unfold schedule_temp.
  destruct (length4 t Hl) as (t0&t1&t2&t3&->).
  destruct (decide (n mod 32 = 0)); [|destruct (decide (n mod 32 = 16))]; done.
Qed.

Lemma expand_step_spec (e : list Z) (r w : nat) :
  length e = 240%nat -> Forall is_byte e -> (8 <= w < 60)%nat ->
  Z.of_nat r = (4 * Z.of_nat w - 1) / 32 ->
  exists r',
    expand_step (4 * Z.of_nat w) (e, r) = (blit e (4 * w) (schedule_word e w), r')
    /\ Z.of_nat r' = (4 * Z.of_nat w + 3) / 32.
Proof.
  intros Hl Hb Hw Hr.
  remember (4 * Z.of_nat w) as n eqn:Hn.
  assert (Hk : Z.to_nat n = (4 * w)%nat) by lia.
  set (prev := take 4 (drop (4 * (w - 1)) e)).
  set (old := take 4 (drop (4 * (w - 8)) e)).
  assert (Hpl : length prev = 4%nat).
  { unfold prev. rewrite length_take, length_drop. lia. }
  assert (Hol : length old = 4%nat).
  { unfold old. rewrite length_take, length_drop. lia. }
  assert (Hpb : Forall is_byte prev) by by apply Forall_take, Forall_drop.
  assert (Hob : Forall is_byte old) by by apply Forall_take, Forall_drop.
  assert (Hstore : forall temp : list Z,
    length temp = 4%nat -> Forall is_byte temp ->
    foldl (fun expanded i =>
            <[ (4 * w + i)%nat :=
                 wrap8 (Z.lxor (at_ expanded (4 * w + i - 32)) (at_ temp i)) ]> expanded)
         e (seq 0 4) = blit e (4 * w) (zip_with Z.lxor old temp)).
  { intros temp Htl Htb.
    assert (Ho : forall i : nat, (i < 4)%nat -> at_ e (4 * w + i - 32) = at_ old i).
    { intros i Hi. unfold old. rewrite at_take_drop by done. f_equal. lia. }
    cbn [seq foldl].
    rewrite !at_insert_ne by lia.
    rewrite !Ho by lia.
    destruct (length4 old Hol) as (o0&o1&o2&o3&->).
    destruct (length4 temp Htl) as (t0&t1&t2&t3&->).
    bytes_of_Forall.
    unfold at_; cbn [lookup_total list_lookup_total zip_with].
    rewrite !wrap8_byte by (by apply lxor_is_byte).
    replace (4 * w + 0)%nat with (4 * w)%nat by lia.
    replace (4 * w + 1)%nat with (S (4 * w)) by lia.
    replace (4 * w + 2)%nat with (S (S (4 * w))) by lia.
    replace (4 * w + 3)%nat with (S (S (S (4 * w)))) by lia.
    apply four_inserts_blit. }
  unfold at_ in Hstore.
  unfold expand_step. rewrite Hk.
  replace (4 * w - 4)%nat with (4 * (w - 1))%nat by lia.
  fold prev. unfold schedule_word. rewrite <- Hn. fold prev old.
  unfold schedule_temp.
  destruct (decide (n mod 32 = 0)) as [E0|E0];
    [|destruct (decide (n mod 32 = 16)) as [E16|E16]].
  - exists (S r). split; [|Z.div_mod_to_equations; lia].
    destruct (length4 prev Hpl) as (t0&t1&t2&t3&Ep). rewrite Ep in *.
    bytes_of_Forall.
    replace (Z.to_nat (n / 32 - 1)) with r by (Z.div_mod_to_equations; lia).
    unfold at_. cbn [lookup_total list_lookup_total list_insert insert].
    rewrite wrap8_byte by (apply lxor_is_byte; [apply sbox_is_byte|apply rcon_is_byte]).
    rewrite Hstore.
    + unfold sub_word, rot_word, at_. cbn. by rewrite !Z.lxor_0_r.
    + done.
    + repeat first [ apply Forall_nil_2 | apply Forall_cons_2
                   | apply sbox_is_byte | apply rcon_is_byte
                   | apply lxor_is_byte ].
  - exists r. split; [|Z.div_mod_to_equations; lia].
    destruct (length4 prev Hpl) as (t0&t1&t2&t3&Ep). rewrite Ep in *.
    unfold at_. rewrite Hstore.
    + done.
    + done.
    + cbn. repeat first [ apply Forall_nil_2 | apply Forall_cons_2
                        | apply sbox_is_byte ].
  - exists r. split; [|Z.div_mod_to_equations; lia].
    unfold at_. by rewrite Hstore.
Qed.

Lemma schedule_word_length e w :
  length e = 240%nat -> (8 <= w < 60)%nat -> length (schedule_word e w) = 4%nat.
Proof.
  intros Hl Hw. unfold schedule_word.
  rewrite length_zip_with, schedule_temp_length;
    rewrite ?length_take, ?length_drop; lia.
Qed.

Lemma schedule_word_is_byte e w :
  length e = 240%nat -> Forall is_byte e -> (8 <= w < 60)%nat ->
  Forall is_byte (schedule_word e w).
Proof.
  intros Hl Hb Hw. unfold schedule_word.
  assert (Forall is_byte (schedule_temp (4 * Z.of_nat w)
                            (take 4 (drop (4 * (w - 1)) e)))) as Ht.
  { apply schedule_temp_is_byte; [by apply Forall_take, Forall_drop|].
    rewrite length_take, length_drop. lia. }
  assert (Forall is_byte (take 4 (drop (4 * (w - 8)) e))) as Ho
    by by apply Forall_take, Forall_drop.
  revert Ho Ht. generalize (take 4 (drop (4 * (w - 8)) e)).
  generalize (schedule_temp (4 * Z.of_nat w) (take 4 (drop (4 * (w - 1)) e))).
  intros t o Ho. revert t. induction Ho as [|x o Hx Ho IH]; intros t Ht; [done|].
  destruct Ht as [|y t Hy Ht]; [done|]. cbn.
  apply Forall_cons_2; [by apply lxor_is_byte|by apply IH].
Qed.

Lemma schedule_word_before e w j T :
  (4 * w <= j)%nat -> (1 <= w)%nat ->
  schedule_word (blit e j T) w = schedule_word e w.
Proof.
  intros Hj Hw. unfold schedule_word.
  by rewrite !seg_blit_before by lia.
Qed.

Lemma schedule_inv_step key k i st :
  i = 32 + 4 * Z.of_N k -> i < 240 ->
  schedule_inv key i st -> schedule_inv key (i + 4) (expand_step i st).
Proof.
  intros Hi Hlt (w & Hn & Hw & Hl & Hb & Hk & Hr & Hrec).
  destruct st as [e r]. cbn [fst snd] in *.
  assert (Hw' : (8 <= w < 60)%nat) by lia.
  rewrite Hn in Hr.
  destruct (expand_step_spec e r w Hl Hb Hw' Hr) as (r' & E & Hr').
  rewrite Hn, E.
  exists (S w). cbn [fst snd].
  pose proof (schedule_word_length e w Hl Hw') as Hsl.
  split; [lia|]. split; [lia|].
  split; [by rewrite blit_length|].
  split; [apply blit_is_byte; [done|by apply schedule_word_is_byte]|].
  split.
  { rewrite <- Hk. rewrite <- (drop_0 (blit _ _ _)), <- (drop_0 e).
    apply seg_blit_before. lia. }
  split.
  { rewrite Hr'. f_equal. lia. }
  intros w1 Hw1.
  rewrite schedule_word_before by lia.
  destruct (decide (w1 = w)) as [->|Hne].
  - rewrite <- Hsl at 1. apply seg_blit_at. lia.
  - rewrite seg_blit_before by lia. apply Hrec. lia.
Qed.

(** X4. From a key of 32 bytes [aes256_expand_key] fills all 240 bytes
    of the schedule with bytes: the first eight words are the key, and
    every later word [w] is word [w - 8] XOR a function of word
    [w - 1], which is [SubWord (RotWord _)] XOR the round constant
    [rcon[w / 8 - 1]] when [w] is a multiple of 8, [SubWord _] when [w]
    is 4 modulo 8, and the word itself otherwise. *)
Theorem aes256_expand_key_schedule (key : list Z) :
  (32 <= length key)%nat -> Forall is_byte (take 32 key) ->
  length (aes256_expand_key key) = 240%nat /\
  Forall is_byte (aes256_expand_key key) /\
  take 32 (aes256_expand_key key) = take 32 key /\
  forall w : nat, (8 <= w < 60)%nat ->
    take 4 (drop (4 * w) (aes256_expand_key key))
    = schedule_word (aes256_expand_key key) w.
Proof.
  intros Hl Hb.
  assert (schedule_inv key 240 (for_step 32 240 4 expand_step
            (blit (replicate 240 0) 0 (take 32 key), 0%nat))) as Hinv.
  { change 240 with (32 + 4 * Z.of_N (Z.to_N ((240 - 32 + 4 - 1) / 4))) at 1.
    apply (for_step_ind (schedule_inv key)); [lia| |].
    - exists 8%nat. cbn [fst snd].
      split; [done|]. split; [lia|].
      split; [by rewrite blit_length, length_replicate|].
      split.
      { apply blit_is_byte; [|done].
        apply Forall_replicate. unfold is_byte. lia. }
      split.
      { rewrite <- (drop_0 (blit _ _ _)).
        replace 32%nat with (length (take 32 key)) at 1
          by (rewrite length_take; lia).
        rewrite seg_blit_at; [done|].
        rewrite length_take, length_replicate. lia. }
      split; [done|]. intros w' Hw'. lia.
    - intros k i st. apply schedule_inv_step. }
  destruct Hinv as (w & Hn & Hw & Hl' & Hb' & Hk & _ & Hrec).
  assert (w = 60%nat) as -> by lia.
  unfold aes256_expand_key. cbv zeta.
  exact (conj Hl' (conj Hb' (conj Hk Hrec))).
Qed.

Lemma aes256_expand_key_schedule_witness :
  length (aes256_expand_key (replicate 32 0)) = 240%nat /\
  Forall is_byte (aes256_expand_key (replicate 32 0)) /\
  take 32 (aes256_expand_key (replicate 32 0)) = take 32 (replicate 32 0) /\
  forall w : nat, (8 <= w < 60)%nat ->
    take 4 (drop (4 * w) (aes256_expand_key (replicate 32 0)))
    = schedule_word (aes256_expand_key (replicate 32 0)) w.
Proof.
  apply aes256_expand_key_schedule.
  - rewrite length_replicate. lia.
  - apply Forall_take, Forall_replicate. unfold is_byte. lia.
Defined.

End KeyScheduleProofs.

(** ** [aes_pseudo_round] and [xor_blocks] *)

Module BlockProofs.
Import AES CryptoNight AESSpec AESProofs ScratchpadSpec WordProofs.

(** [aes_single_round] reads sixteen bytes behind each pointer. *)
Lemma aes_single_round_reads_16 inp key :
  aes_single_round inp key = aes_single_round (take 16 inp) (take 16 key).
Proof.
  unfold aes_single_round. cbv zeta.
  rewrite (fmap_seq_ext (fun i : nat => at_ aes_sbox (Z.to_nat (at_ inp i)))
             (fun i : nat => at_ aes_sbox (Z.to_nat (at_ (take 16 inp) i))))
    by (intros i Hi; by rewrite at_take).
  apply fmap_seq_ext. intros i Hi. by rewrite at_take.
Qed.

Lemma aes_single_round_spec inp key :
  (16 <= length inp)%nat -> (16 <= length key)%nat ->
  Forall is_byte (take 16 inp) -> Forall is_byte (take 16 key) ->
  aes_single_round inp key = aes_round (take 16 inp) (take 16 key).
Proof.
  intros Hli Hlk Hbi Hbk. rewrite aes_single_round_reads_16.
  apply aes_single_round_refines; rewrite ?length_take; (lia || done).
Qed.

Lemma round_key_is_byte expanded_key (r : nat) :
  (r < 10)%nat -> Forall is_byte (take 160 expanded_key) ->
  Forall is_byte (take 16 (drop (r * 16) expanded_key)).
Proof.
  intros Hr Hb. apply Forall_lookup_2. intros i x Hi.
  destruct (decide (i < 16)%nat) as [Hlt|Hge].
  - rewrite lookup_take_lt, lookup_drop in Hi by done.
    rewrite Forall_lookup in Hb. apply (Hb (r * 16 + i)%nat).
    by rewrite lookup_take_lt by lia.
  - by rewrite lookup_take_ge in Hi by lia.
Qed.

Lemma pseudo_rounds_spec (rs : list nat) d expanded_key :
  Forall (fun r => r < 10)%nat rs ->
  length d = 16%nat -> Forall is_byte d ->
  (160 <= length expanded_key)%nat -> Forall is_byte (take 160 expanded_key) ->
  foldl (fun data r => aes_single_round data (drop (r * 16) expanded_key)) d rs
  = foldl (fun d (r : nat) => aes_round d (take 16 (drop (r * 16) expanded_key)))
          d rs.
Proof.
  intros Hrs. revert d.
  induction Hrs as [|r rs Hr Hrs IH]; intros d Hl Hb Hlk Hbk;
    [cbn [foldl]; reflexivity|].
  cbn [foldl].
  assert (aes_single_round d (drop (r * 16) expanded_key)
          = aes_round d (take 16 (drop (r * 16) expanded_key))) as E.
  { rewrite aes_single_round_spec.
    - by rewrite (take_ge d) by lia.
    - lia.
    - rewrite length_drop. lia.
    - by rewrite take_ge by lia.
    - by apply round_key_is_byte. }
  rewrite <- E. apply IH; [|apply aes_single_round_is_byte|done|done].
  apply aes_single_round_length.
Qed.

Lemma round_key_take (expanded_key : list Z) (r : nat) :
  (r < 10)%nat ->
  take 16 (drop (r * 16) (take 160 expanded_key))
  = take 16 (drop (r * 16) expanded_key).
Proof.
  intros Hr. apply list_eq. intros i.
  destruct (decide (i < 16)%nat) as [Hlt|Hge].
  - rewrite !lookup_take_lt, !lookup_drop by done.
    by rewrite lookup_take_lt by lia.
  - by rewrite !lookup_take_ge by lia.
Qed.

Lemma pseudo_rounds_key (rs : list nat) d expanded_key :
  Forall (fun r => r < 10)%nat rs ->
  foldl (fun data r => aes_single_round data (drop (r * 16) expanded_key)) d rs
  = foldl (fun data r =>
             aes_single_round data (drop (r * 16) (take 160 expanded_key)))
          d rs.
Proof.
  intros Hrs. revert d.
  induction Hrs as [|r rs Hr Hrs IH]; intros d; [cbn [foldl]; reflexivity|].
  cbn [foldl]. rewrite IH.
  rewrite (aes_single_round_reads_16 d (drop (r * 16) (take 160 expanded_key))).
  rewrite (aes_single_round_reads_16 d (drop (r * 16) expanded_key)).
  rewrite round_key_take by done. reflexivity.
Qed.

Lemma seq_lt (n : nat) : Forall (fun r => r < n)%nat (seq 0 n).
Proof. apply list.Forall_forall. intros i Hi. apply elem_of_seq in Hi. lia. Qed.

Lemma pseudo_rounds_data data expanded_key :
  foldl (fun data r => aes_single_round data (drop (r * 16) expanded_key))
        data (0%nat :: seq 1 9)
  = foldl (fun data r => aes_single_round data (drop (r * 16) expanded_key))
          (take 16 data) (0%nat :: seq 1 9).
Proof.
  cbn [foldl].
  rewrite (aes_single_round_reads_16 data (drop (0 * 16) expanded_key)).
  rewrite (aes_single_round_reads_16 (take 16 data)
             (drop (0 * 16) expanded_key)).
  rewrite take_take, Nat.min_id. reflexivity.
Qed.
(** X5. [aes_pseudo_round] reads sixteen bytes behind [data] and the
    first ten round keys, 160 bytes, behind [expanded_key]: what lies
    after them has no effect on the block it computes. *)
Theorem aes_pseudo_round_reads data expanded_key :
  aes_pseudo_round data expanded_key
  = aes_pseudo_round (take 16 data) (take 160 expanded_key).
Proof.
  unfold aes_pseudo_round.
  rewrite <- pseudo_rounds_key by apply seq_lt.
  apply pseudo_rounds_data.
Qed.

Lemma aes_pseudo_round_rounds data expanded_key :
  (16 <= length data)%nat -> Forall is_byte (take 16 data) ->
  (160 <= length expanded_key)%nat -> Forall is_byte (take 160 expanded_key) ->
  aes_pseudo_round data expanded_key = ten_rounds (take 16 data) expanded_key
  /\ length (aes_pseudo_round data expanded_key) = 16%nat
  /\ Forall is_byte (aes_pseudo_round data expanded_key).
Proof.
  intros Hld Hbd Hlk Hbk. split; [|split].
  - unfold aes_pseudo_round, ten_rounds.
    rewrite <- pseudo_rounds_spec;
      [apply pseudo_rounds_data|apply seq_lt| |done|done|done].
    rewrite length_take. lia.
  - unfold aes_pseudo_round.
    change (seq 0 10) with (seq 0 9 ++ [9%nat]). rewrite foldl_app.
    apply aes_single_round_length.
  - unfold aes_pseudo_round.
    change (seq 0 10) with (seq 0 9 ++ [9%nat]). rewrite foldl_app.
    apply aes_single_round_is_byte.
Qed.

(** X6. On a block of sixteen bytes and a schedule of at least 160 bytes
    [aes_pseudo_round] is ten full AES rounds (SubBytes, ShiftRows,
    MixColumns, AddRoundKey), round [r] keyed with bytes
    [16 r .. 16 r + 15] of the schedule, and it gives sixteen bytes. *)
Theorem aes_pseudo_round_is_ten_rounds data expanded_key :
  (16 <= length data)%nat -> Forall is_byte (take 16 data) ->
  (160 <= length expanded_key)%nat -> Forall is_byte (take 160 expanded_key) ->
  aes_pseudo_round data expanded_key = ten_rounds (take 16 data) expanded_key
  /\ length (aes_pseudo_round data expanded_key) = 16%nat
  /\ Forall is_byte (aes_pseudo_round data expanded_key).
Proof. apply aes_pseudo_round_rounds. Qed.

Lemma aes_pseudo_round_is_ten_rounds_witness :
  aes_pseudo_round (replicate 16 0x19) (replicate 240 0xa0)
  = ten_rounds (take 16 (replicate 16 0x19)) (replicate 240 0xa0)
  /\ length (aes_pseudo_round (replicate 16 0x19) (replicate 240 0xa0))
     = 16%nat
  /\ Forall is_byte (aes_pseudo_round (replicate 16 0x19) (replicate 240 0xa0)).
Proof.
  apply aes_pseudo_round_is_ten_rounds.
  - rewrite length_replicate. lia.
  - apply Forall_take, Forall_replicate. unfold is_byte. lia.
  - rewrite length_replicate. lia.
  - apply Forall_take, Forall_replicate. unfold is_byte. lia.
Defined.

(** *** [xor_blocks] *)

Lemma xor_blocks_prefix (n : nat) (a b : list Z) :
  (n <= length a)%nat -> (n <= length b)%nat ->
  Forall is_byte (take n a) -> Forall is_byte (take n b) ->
  foldl (fun a i => <[ i := wrap8 (Z.lxor (at_ a i) (at_ b i)) ]> a) a (seq 0 n)
  = zip_with Z.lxor (take n a) (take n b) ++ drop n a.
Proof.
  intros Hla Hlb. induction n as [|n IH]; intros Ha Hb.
  - by rewrite !take_0, drop_0.
  - rewrite seq_S, foldl_app. cbn [foldl]. rewrite Nat.add_0_l.
    rewrite IH; [|lia|lia| |].
    + destruct (lookup_lt_is_Some_2 a n ltac:(lia)) as [x Hx].
      destruct (lookup_lt_is_Some_2 b n ltac:(lia)) as [y Hy].
      rewrite (take_S_r a n x), (take_S_r b n y) by done.
      rewrite (take_S_r a n x) in Ha by done.
      rewrite (take_S_r b n y) in Hb by done.
      apply Forall_app in Ha as [_ Hxb]. apply Forall_app in Hb as [_ Hyb].
      apply Forall_inv in Hxb. apply Forall_inv in Hyb.
      assert (Hzl : length (zip_with Z.lxor (take n a) (take n b)) = n).
      { rewrite length_zip_with, !length_take. lia. }
      rewrite zip_with_app by (rewrite !length_take; lia).
      cbn [zip_with].
      assert (at_ (zip_with Z.lxor (take n a) (take n b) ++ drop n a) n = x) as ->.
      { unfold at_. rewrite list_lookup_total_alt.
        rewrite lookup_app_r by lia. rewrite Hzl, Nat.sub_diag.
        by rewrite lookup_drop, Nat.add_0_r, Hx. }
      assert (at_ b n = y) as ->.
      { unfold at_. by rewrite list_lookup_total_alt, Hy. }
      rewrite wrap8_byte by (by apply lxor_is_byte).
      rewrite (drop_S a x n Hx).
      rewrite <- (Nat.add_0_r n) at 1. rewrite <- Hzl at 1.
      rewrite insert_app_r. cbn [insert list_insert].
      by rewrite <- app_assoc.
    + replace (take n a) with (take n (take (S n) a))
        by (rewrite take_take; f_equal; lia).
      by apply Forall_take.
    + replace (take n b) with (take n (take (S n) b))
        by (rewrite take_take; f_equal; lia).
      by apply Forall_take.
Qed.

Lemma xor_blocks_zip (a b : list Z) :
  (16 <= length a)%nat -> (16 <= length b)%nat ->
  Forall is_byte (take 16 a) -> Forall is_byte (take 16 b) ->
  xor_blocks a b = zip_with Z.lxor (take 16 a) (take 16 b) ++ drop 16 a.
Proof. apply (xor_blocks_prefix 16). Qed.

(** X7. [xor_blocks] replaces the first sixteen bytes behind [a] with
    their bytewise XOR with the first sixteen behind [b], and leaves
    what follows them in [a] as it was. *)
Theorem xor_blocks_is_bytewise_xor (a b : list Z) :
  (16 <= length a)%nat -> (16 <= length b)%nat ->
  Forall is_byte (take 16 a) -> Forall is_byte (take 16 b) ->
  xor_blocks a b = zip_with Z.lxor (take 16 a) (take 16 b) ++ drop 16 a.
Proof. apply xor_blocks_zip. Qed.

Lemma xor_blocks_is_bytewise_xor_witness :
  xor_blocks (replicate 20 0x0f) (replicate 16 0x3c)
  = zip_with Z.lxor (take 16 (replicate 20 0x0f)) (take 16 (replicate 16 0x3c))
    ++ drop 16 (replicate 20 0x0f).
Proof.
  apply xor_blocks_is_bytewise_xor.
  - rewrite length_replicate. lia.
  - rewrite length_replicate. lia.
  - apply Forall_take, Forall_replicate. unfold is_byte. lia.
  - apply Forall_take, Forall_replicate. unfold is_byte. lia.
Defined.

Lemma zip_lxor_cancel (a b : list Z) :
  length a = length b -> zip_with Z.lxor (zip_with Z.lxor a b) b = a.
Proof.
  revert b. induction a as [|x a IH]; intros [|y b] Hl; try done.
  cbn. rewrite IH by (cbn in Hl; lia).
  by rewrite Z.lxor_assoc, Z.lxor_nilpotent, Z.lxor_0_r.
Qed.

Lemma zip_lxor_is_byte (a b : list Z) :
  Forall is_byte a -> Forall is_byte b -> Forall is_byte (zip_with Z.lxor a b).
Proof.
  intros Ha. revert b. induction Ha as [|x a Hx Ha IH]; intros b Hb; [done|].
  destruct Hb as [|y b Hy Hb]; [done|]. cbn.
  apply Forall_cons_2; [by apply lxor_is_byte|by apply IH].
Qed.

(** X8. [xor_blocks] with the same second block undoes itself. *)
Theorem xor_blocks_involutive (a b : list Z) :
  (16 <= length a)%nat -> (16 <= length b)%nat ->
  Forall is_byte (take 16 a) -> Forall is_byte (take 16 b) ->
  xor_blocks (xor_blocks a b) b = a.
Proof.
  intros Hla Hlb Ha Hb.
  rewrite (xor_blocks_zip a b) by done.
  assert (Hzl : length (zip_with Z.lxor (take 16 a) (take 16 b)) = 16%nat).
  { rewrite length_zip_with, !length_take. lia. }
  rewrite xor_blocks_zip.
  - rewrite take_app_length' by done.
    rewrite drop_app_length' by done.
    rewrite zip_lxor_cancel by (rewrite !length_take; lia).
    apply take_drop.
  - rewrite length_app, Hzl. lia.
  - done.
  - rewrite take_app_length' by done. by apply zip_lxor_is_byte.
  - done.
Qed.

Lemma xor_blocks_involutive_witness :
  xor_blocks (xor_blocks (replicate 20 0x0f) (replicate 16 0x3c))
             (replicate 16 0x3c)
  = replicate 20 0x0f.
Proof.
  apply xor_blocks_involutive.
  - rewrite length_replicate. lia.
  - rewrite length_replicate. lia.
  - apply Forall_take, Forall_replicate. unfold is_byte. lia.
  - apply Forall_take, Forall_replicate. unfold is_byte. lia.
Defined.

End BlockProofs.

(** ** Filling and folding the scratchpad *)

Module ScratchpadProofs.
Import Keccak AES CryptoNight AESSpec AESProofs ScratchpadSpec ScratchpadAux.
Import Inputs EntryPointProofs LoopProofs WordProofs BlockProofs.

Lemma init_text_step_length K t : length (init_text_step K t) = length t.
Proof.
  unfold init_text_step.
  apply (for_step_invariant (fun t' : list Z => length t' = length t)); [|done].
  intros i t' H. by rewrite blit_length.
Qed.

Lemma init_scratchpad_strides K text hp :
  length text = 128%nat -> Z.of_nat (length hp) = CN_MEMORY ->
  forall k : nat, Z.of_nat k < 16384 ->
    take 128 (drop (128 * k) (snd (init_scratchpad K text hp)))
    = N.iter (N.of_nat k + 1) (init_text_step K) text.
Proof.
  intros Ht Hhp.
  pose (Inv := fun (i : Z) (p : list Z * list Z) =>
    exists n : nat,
      i = 128 * Z.of_nat n /\
      fst p = N.iter (N.of_nat n) (init_text_step K) text /\
      length (snd p) = length hp /\
      forall k, (k < n)%nat ->
        take 128 (drop (128 * k) (snd p))
        = N.iter (N.of_nat k + 1) (init_text_step K) text).
  assert (Inv (0 + INIT_SIZE_BYTE *
                 Z.of_N (Z.to_N ((CN_MEMORY - 0 + INIT_SIZE_BYTE - 1) / INIT_SIZE_BYTE)))
              (init_scratchpad K text hp)) as (n & En & _ & _ & Hall).
  { assert (init_scratchpad K text hp
            = for_step 0 CN_MEMORY INIT_SIZE_BYTE
                (fun i '(text, hp) =>
                   (init_text_step K text,
                    blit hp (Z.to_nat i)
                         (take (Z.to_nat INIT_SIZE_BYTE) (init_text_step K text))))
                (text, hp)) as ->.
    { unfold init_scratchpad, init_text_step. reflexivity. }
    apply for_step_ind.
    - done.
    - exists 0%nat. split; [done|]. split; [done|]. split; [done|].
      intros; lia.
    - intros k i [t h] Ei Hi (n & En & Et & Hl & Hall). cbn [fst snd] in En, Et, Hl, Hall.
      cbv beta iota. unfold Inv. cbn [fst snd].
      exists (S n). split; [unfold INIT_SIZE_BYTE; lia|].
      assert (Et' : init_text_step K t
                    = N.iter (N.of_nat (S n)) (init_text_step K) text).
      { rewrite Nat2N.inj_succ, N.iter_succ. by rewrite Et. }
      assert (Hlt : length (init_text_step K t) = 128%nat).
      { rewrite init_text_step_length, Et.
        apply (N.iter_invariant _ _ _ (fun l => length l = 128%nat)); [|done].
        intros l Hl'. by rewrite init_text_step_length. }
      assert (Hn : (128 * n + 128 <= length hp)%nat)
        by (unfold CN_MEMORY in *; lia).
      split; [done|]. rewrite blit_length. split; [done|].
      intros k' Hk'.
      replace (Z.to_nat INIT_SIZE_BYTE) with 128%nat by done.
      rewrite (take_ge (init_text_step K t)) by lia.
      replace (Z.to_nat i) with (128 * n)%nat by lia.
      destruct (decide (k' < n)%nat) as [Hlt'|Hge].
      + rewrite seg_blit_before by lia. by apply Hall.
      + assert (k' = n) as -> by lia.
        rewrite <- Hlt at 1. rewrite seg_blit_at by lia.
        rewrite Et'. f_equal. lia. }
  intros k Hk. apply Hall.
  change (0 + INIT_SIZE_BYTE * _) with 2097152 in En.
  lia.
Qed.

Lemma init_scratchpad_independent K text hp hp' :
  length text = 128%nat ->
  Z.of_nat (length hp) = CN_MEMORY -> Z.of_nat (length hp') = CN_MEMORY ->
  snd (init_scratchpad K text hp) = snd (init_scratchpad K text hp').
Proof.
  intros Ht Hhp Hhp'.
  apply (chunks_ext 128 (Z.to_nat 16384)).
  - rewrite init_scratchpad_length. unfold CN_MEMORY in *. lia.
  - rewrite init_scratchpad_length. unfold CN_MEMORY in *. lia.
  - intros k Hk.
    rewrite !init_scratchpad_strides by (done || lia). done.
Qed.

Lemma keccak_state_text input :
  length (take (Z.to_nat INIT_SIZE_BYTE) (drop 64 (keccak1600 input))) = 128%nat.
Proof.
  rewrite length_take, length_drop, KeccakProofs.keccak1600_length. done.
Qed.

Lemma cn_digest_block_independent F hp hp' input :
  Z.of_nat (length hp) = CN_MEMORY -> Z.of_nat (length hp') = CN_MEMORY ->
  cn_digest F hp input = cn_digest F hp' input.
Proof.
  intros Hhp Hhp'. unfold cn_digest. cbv zeta.
  pose proof (init_scratchpad_independent
                (aes256_expand_key (keccak1600 input))
                (take (Z.to_nat INIT_SIZE_BYTE) (drop 64 (keccak1600 input)))
                hp hp' (keccak_state_text input) Hhp Hhp') as E.
  destruct (init_scratchpad _ _ hp) as [t1 h1].
  destruct (init_scratchpad _ _ hp') as [t2 h2].
  cbn [snd] in E. subst h2. reflexivity.
Qed.

(** X9. Step 3 leaves in stride [k] of the scratchpad, bytes
    [128 k .. 128 k + 127], the 128 bytes of [text] after [k + 1]
    passes of its eight blocks through the pseudo-round; nothing of what
    the block held before is left. *)
Theorem init_scratchpad_stride_contents K text hp :
  length text = 128%nat -> Z.of_nat (length hp) = CN_MEMORY ->
  forall k : nat, Z.of_nat k < 16384 ->
    take 128 (drop (128 * k) (snd (init_scratchpad K text hp)))
    = N.iter (N.of_nat k + 1) (init_text_step K) text.
Proof. apply init_scratchpad_strides. Qed.

Lemma init_scratchpad_stride_contents_witness :
  take 128 (drop (128 * 5)
              (snd (init_scratchpad (replicate 240 0) (replicate 128 0)
                                    zero_block)))
  = N.iter (N.of_nat 5 + 1) (init_text_step (replicate 240 0))
           (replicate 128 0).
Proof.
  apply init_scratchpad_stride_contents.
  - apply length_replicate.
  - exact MainLoopProofs.zero_block_length.
  - lia.
Defined.

Lemma fold_block_refines K text hp (j off : nat) :
  text_inv text -> (j + 16 <= 128)%nat ->
  (off + 16 <= length hp)%nat -> Forall is_byte hp ->
  (160 <= length K)%nat -> Forall is_byte (take 160 K) ->
  blit text j (aes_pseudo_round (xor_blocks (drop j text) (drop off hp)) K)
  = fold_block K text j (take 16 (drop off hp))
  /\ text_inv (fold_block K text j (take 16 (drop off hp))).
Proof.
  intros [Hl Hb] Hj Hoff Hhp HKl HKb.
  assert (Hx : xor_blocks (drop j text) (drop off hp)
               = zip_with Z.lxor (take 16 (drop j text)) (take 16 (drop off hp))
                 ++ drop 16 (drop j text)).
  { apply xor_blocks_zip.
    - rewrite length_drop. lia.
    - rewrite length_drop. lia.
    - by apply Forall_take, Forall_drop.
    - by apply Forall_take, Forall_drop. }
  assert (Hzl : length (zip_with Z.lxor (take 16 (drop j text))
                                 (take 16 (drop off hp))) = 16%nat).
  { rewrite length_zip_with, !length_take, !length_drop. lia. }
  assert (Hzb : Forall is_byte (zip_with Z.lxor (take 16 (drop j text))
                                         (take 16 (drop off hp)))).
  { apply zip_lxor_is_byte; by apply Forall_take, Forall_drop. }
  destruct (aes_pseudo_round_rounds
              (xor_blocks (drop j text) (drop off hp)) K) as (E & Hrl & Hrb).
  { rewrite Hx, length_app, Hzl. lia. }
  { rewrite Hx, take_app_length' by done. done. }
  { done. }
  { done. }
  assert (Ht : take 16 (xor_blocks (drop j text) (drop off hp))
               = zip_with Z.lxor (take 16 (drop j text)) (take 16 (drop off hp)))
    by (by rewrite Hx, take_app_length').
  rewrite Ht in E.
  unfold fold_block. rewrite <- E. split; [reflexivity|].
  split.
  - by rewrite blit_length.
  - by apply blit_is_byte.
Qed.

(** X10. Step 5 folds the scratchpad into [text] sixteen bytes at a
    time: block [j] of [text] becomes the ten AES rounds of its XOR with
    the scratchpad block at [i + j], for every stride [i] in order. The
    result is again 128 bytes. *)
Theorem reduce_scratchpad_folds_blocks K text hp :
  length text = 128%nat -> Forall is_byte text ->
  Z.of_nat (length hp) = CN_MEMORY -> Forall is_byte hp ->
  (160 <= length K)%nat -> Forall is_byte (take 160 K) ->
  reduce_scratchpad K text hp = reduce_spec K text hp
  /\ length (reduce_scratchpad K text hp) = 128%nat
  /\ Forall is_byte (reduce_scratchpad K text hp).
Proof.
  intros Hl Hb Hhl Hhb HKl HKb.
  assert (reduce_scratchpad K text hp = reduce_spec K text hp
          /\ text_inv (reduce_spec K text hp)) as [E [Hrl Hrb]].
  { unfold reduce_scratchpad, reduce_spec.
    apply (for_step_ext text_inv); [done|by split|].
    intros k i t Hi Hlt Ht.
    apply (for_step_ext text_inv); [done|exact Ht|].
    intros k' j t' Hj Hjlt Ht'.
    unfold CN_MEMORY, INIT_SIZE_BYTE, AES_BLOCK_SIZE in *.
    apply fold_block_refines; try done; lia. }
  rewrite E. split; [reflexivity|]. split; [exact Hrl|exact Hrb].
Qed.

Lemma reduce_scratchpad_folds_blocks_witness :
  reduce_scratchpad (replicate 240 0) (replicate 128 0) zero_block
  = reduce_spec (replicate 240 0) (replicate 128 0) zero_block
  /\ length (reduce_scratchpad (replicate 240 0) (replicate 128 0) zero_block)
     = 128%nat
  /\ Forall is_byte
       (reduce_scratchpad (replicate 240 0) (replicate 128 0) zero_block).
Proof.
  apply reduce_scratchpad_folds_blocks.
  - apply length_replicate.
  - apply Forall_replicate. unfold is_byte. lia.
  - exact MainLoopProofs.zero_block_length.
  - exact MainLoopProofs.zero_block_is_byte.
  - rewrite length_replicate. lia.
  - apply Forall_take, Forall_replicate. unfold is_byte. lia.
Defined.

End ScratchpadProofs.

(** ** What one iteration of the main loop touches *)

Module IterationProofs.
Import AES CryptoNight MainLoopSpec MainLoopAux AESProofs MainLoopProofs.
Import Inputs LoopProofs WordProofs.

Lemma iter_result_frame st (x : nat) :
  Z.of_nat (length (hp_state st)) = CN_MEMORY ->
  ~ (fst (snd (iter_result st)) <= Z.of_nat x < fst (snd (iter_result st)) + 16) ->
  ~ (snd (snd (iter_result st)) <= Z.of_nat x < snd (snd (iter_result st)) + 16) ->
  hp_state (fst (iter_result st)) !! x = hp_state st !! x.
Proof.
  destruct st as [hp [a0 a1] [b0 b1]]. cbn [hp_state]. intros Hlen.
  unfold iter_result. cbn [hp_state a b fst snd].
  set (c1 := aes_single_round _ _).
  pose proof (sp_index_bound a0) as Hj1.
  pose proof (sp_index_bound (load64 c1 0)) as Hj2.
  set (j1 := sp_index a0) in *. set (j2 := sp_index (load64 c1 0)) in *.
  intros Hx1 Hx2.
  repeat match goal with
  | |- blit ?h ?j ?T !! x = _ =>
      transitivity (h !! x);
      [destruct (decide (x < j)%nat);
       [by apply blit_lookup_lt
       |apply blit_lookup_ge; rewrite u64_bytes_length; lia]|]
  end.
  reflexivity.
Qed.

Lemma iter_result_registers st :
  Z.of_nat (length (hp_state st)) = CN_MEMORY ->
  Forall is_byte (hp_state st) ->
  is_u64 (fst (a (fst (iter_result st)))) /\
  is_u64 (snd (a (fst (iter_result st)))) /\
  is_u64 (fst (b (fst (iter_result st)))) /\
  is_u64 (snd (b (fst (iter_result st)))).
Proof.
  destruct st as [hp [a0 a1] [b0 b1]]. cbn [hp_state]. intros Hlen Hb.
  unfold iter_result. cbn [hp_state a b fst snd].
  set (c1 := aes_single_round _ _).
  assert (Hc1l : length c1 = 16%nat) by apply aes_single_round_length.
  assert (Hc1b : Forall is_byte c1) by apply aes_single_round_is_byte.
  pose proof (sp_index_bound a0) as Hj1.
  pose proof (sp_index_bound (load64 c1 0)) as Hj2.
  set (j1 := sp_index a0) in *. set (j2 := sp_index (load64 c1 0)) in *.
  set (hp2 := blit (blit hp _ _) _ _).
  assert (Hb2 : Forall is_byte hp2).
  { subst hp2. repeat (apply blit_is_byte; [|apply u64_bytes_is_byte]).
    exact Hb. }
  assert (Hl2 : length hp2 = length hp) by (subst hp2; by rewrite !blit_length).
  assert (H0 : is_u64 (load64 hp2 (Z.to_nat j2)))
    by (apply load64_u64; [exact Hb2|unfold CN_MEMORY in *; lia]).
  assert (H8 : is_u64 (load64 hp2 (Z.to_nat (j2 + 8))))
    by (apply load64_u64; [exact Hb2|unfold CN_MEMORY in *; lia]).
  split; [apply lxor_is_u64; [apply wrap64_is_u64|exact H0]|].
  split; [apply lxor_is_u64; [apply wrap64_is_u64|exact H8]|].
  split; apply load64_u64; (exact Hc1b || lia).
Qed.

(** X11. The offset [((uint32_t) w) & 0x1FFFF0] is sixteen times a block
    number: bits 4..20 of [w] select one of the 131072 blocks of the
    scratchpad. *)
Theorem sp_index_block_number w : sp_index w = 16 * ((w / 16) mod 131072).
Proof.
  unfold sp_index, wrap32. rewrite <- land_block_mask.
  rewrite <- Z.land_ones by lia. rewrite <- Z.land_assoc. reflexivity.
Qed.

Lemma iter_result_eta st :
  iter_result st
  = (fst (iter_result st), (fst (snd (iter_result st)), snd (snd (iter_result st)))).
Proof. destruct (iter_result st) as [s [j1 j2]]. reflexivity. Qed.

(** X12. With the scratchpad allocated, one iteration of the main loop
    completes, keeps the size of the scratchpad, and changes no byte of
    it outside the two 16-byte blocks at [j1] and [j2]. *)
Theorem main_iter_writes_two_blocks (st : loop_state) :
  Z.of_nat (length (hp_state st)) = CN_MEMORY ->
  exists st' j1 j2,
    main_iter st = Some (st', (j1, j2)) /\
    length (hp_state st') = length (hp_state st) /\
    forall x : nat,
      ~ (j1 <= Z.of_nat x < j1 + 16) -> ~ (j2 <= Z.of_nat x < j2 + 16) ->
      hp_state st' !! x = hp_state st !! x.
Proof.
  intros Hlen.
  exists (fst (iter_result st)), (fst (snd (iter_result st))),
         (snd (snd (iter_result st))).
  split; [|split].
  - rewrite main_iter_in_range by exact Hlen.
    rewrite <- iter_result_eta. reflexivity.
  - apply iter_result_length.
  - intros x. apply iter_result_frame. exact Hlen.
Qed.

Lemma main_iter_writes_two_blocks_witness :
  exists st' j1 j2,
    main_iter zero_state = Some (st', (j1, j2)) /\
    length (hp_state st') = length (hp_state zero_state) /\
    forall x : nat,
      ~ (j1 <= Z.of_nat x < j1 + 16) -> ~ (j2 <= Z.of_nat x < j2 + 16) ->
      hp_state st' !! x = hp_state zero_state !! x.
Proof.
  apply (main_iter_writes_two_blocks zero_state).
  exact zero_block_length.
Defined.

(** X13. One iteration keeps the scratchpad an array of bytes and
    leaves 64-bit words in [a] and [b], whatever [a] and [b] held: the
    additions of sub-step B wrap. *)
Theorem main_iter_keeps_bytes_and_words (st : loop_state) :
  Z.of_nat (length (hp_state st)) = CN_MEMORY ->
  Forall is_byte (hp_state st) ->
  exists st' js,
    main_iter st = Some (st', js) /\
    Forall is_byte (hp_state st') /\
    is_u64 (fst (a st')) /\ is_u64 (snd (a st')) /\
    is_u64 (fst (b st')) /\ is_u64 (snd (b st')).
Proof.
  intros Hlen Hb.
  exists (fst (iter_result st)), (snd (iter_result st)).
  split; [|split].
  - rewrite main_iter_in_range by exact Hlen.
    destruct (iter_result st) as [s js]. reflexivity.
  - apply (iter_result_inv st). split; [exact Hlen|exact Hb].
  - apply iter_result_registers; [exact Hlen|exact Hb].
Qed.

Lemma main_iter_keeps_bytes_and_words_witness :
  exists st' js,
    main_iter zero_state = Some (st', js) /\
    Forall is_byte (hp_state st') /\
    is_u64 (fst (a st')) /\ is_u64 (snd (a st')) /\
    is_u64 (fst (b st')) /\ is_u64 (snd (b st')).
Proof.
  apply (main_iter_keeps_bytes_and_words zero_state).
  - exact zero_block_length.
  - exact zero_block_is_byte.
Defined.

Lemma iterations_inv n st :
  sp_inv st -> sp_inv (N.iter n (fun st => fst (iter_result st)) st).
Proof.
  intros Hst. induction n as [|n IH] using N.peano_ind; [done|].
  rewrite N.iter_succ. by apply iter_result_inv.
Qed.

(** X14. The whole main loop completes on a scratchpad of [CN_MEMORY]
    bytes, and what it leaves is again [CN_MEMORY] bytes. *)
Theorem main_loop_keeps_scratchpad (st : loop_state) :
  Z.of_nat (length (hp_state st)) = CN_MEMORY ->
  Forall is_byte (hp_state st) ->
  exists st' used,
    main_loop st = Some (st', used) /\
    length (hp_state st') = length (hp_state st) /\
    Forall is_byte (hp_state st').
Proof.
  intros Hlen Hb.
  destruct (main_loop_run st Hlen) as [E _].
  exists (fst (N.iter 262144 loop_next (st, []))),
         (snd (N.iter 262144 loop_next (st, []))).
  split.
  - rewrite E. destruct (N.iter _ _ _) as [s u]. reflexivity.
  - rewrite loop_next_state. cbn [fst].
    destruct (iterations_inv 262144 st (conj Hlen Hb)) as [Hl' Hb'].
    split; [|exact Hb']. apply Nat2Z.inj. rewrite Hl'. symmetry. exact Hlen.
Qed.

Lemma main_loop_keeps_scratchpad_witness :
  exists st' used,
    main_loop zero_state = Some (st', used) /\
    length (hp_state st') = length (hp_state zero_state) /\
    Forall is_byte (hp_state st').
Proof.
  apply (main_loop_keeps_scratchpad zero_state).
  - exact zero_block_length.
  - exact zero_block_is_byte.
Defined.

End IterationProofs.

(** ** [cn_hash] and [try_hash] once more *)

Module HashProofs.
Import Keccak AES CryptoNight TryHashSpec Inputs MainLoopAux.
Import KeccakProofs MainLoopProofs EntryPointProofs ScratchpadProofs.

Lemma lanes_bytes_is_byte (st : list Z) : Forall is_byte (st ≫= u64_bytes).
Proof.
  induction st as [|v st IH]; [done|].
  rewrite bind_cons. apply Forall_app. split; [apply u64_bytes_is_byte|done].
Qed.

Lemma cn_digest_state F hp input :
  Z.of_nat (length hp) = CN_MEMORY ->
  exists state,
    length state = 200%nat /\ Forall is_byte state /\
    cn_digest F hp input = Some (final_hash F state).
Proof.
  intros Hlen. unfold cn_digest. cbv zeta.
  pose proof (init_scratchpad_length
                (AES.aes256_expand_key (Keccak.keccak1600 input))
                (take (Z.to_nat INIT_SIZE_BYTE)
                      (drop 64 (Keccak.keccak1600 input))) hp) as Hinit.
  destruct (init_scratchpad _ _ _) as [text hp']. cbn [snd] in Hinit.
  match goal with
  | |- context [main_loop ?s] =>
      destruct (main_loop_run s) as [-> _]; [cbn [hp_state]; lia|]
  end.
  rewrite bind_Some_l. destruct (N.iter _ _ _) as [st used].
  eexists. split; [|split; [|reflexivity]].
  - rewrite lanes_bytes_length, keccakf_length, length_fmap, length_seq.
    reflexivity.
  - apply lanes_bytes_is_byte.
Qed.

(** X15. With the scratchpad allocated [cn_hash] always completes, and
    what it leaves is the caller's memory with, at [output], what the
    final hash function selected by [state[0] & 3] stores for a state of
    200 bytes. *)
Theorem cn_hash_stores_final_hash F hp input m output :
  Z.of_nat (length hp) = CN_MEMORY ->
  exists state,
    length state = 200%nat /\ Forall is_byte state /\
    cn_hash F (Some hp) input m output
    = Some (mem_write m output (final_hash F state)).
Proof.
  intros Hlen.
  destruct (cn_digest_state F hp input Hlen) as (state & Hl & Hb & E).
  exists state. split; [exact Hl|]. split; [exact Hb|].
  unfold cn_hash. rewrite E. rewrite bind_Some_l. reflexivity.
Qed.

Lemma cn_hash_stores_final_hash_witness :
  exists state,
    length state = 200%nat /\ Forall is_byte state /\
    cn_hash zero_finalizers (Some zero_block) [] zero_mem 1000
    = Some (mem_write zero_mem 1000 (final_hash zero_finalizers state)).
Proof.
  apply cn_hash_stores_final_hash. exact zero_block_length.
Defined.

(** X16. [cn_hash] does not depend on what the block that [malloc]
    hands out holds: step 3 overwrites all of it before the main loop
    reads any. *)
Theorem cn_hash_ignores_block_contents F hp hp' input m output :
  Z.of_nat (length hp) = CN_MEMORY -> Z.of_nat (length hp') = CN_MEMORY ->
  cn_hash F (Some hp) input m output = cn_hash F (Some hp') input m output.
Proof.
  intros Hhp Hhp'. unfold cn_hash.
  rewrite (cn_digest_block_independent F hp hp' input Hhp Hhp').
  reflexivity.
Qed.

Lemma cn_hash_ignores_block_contents_witness :
  cn_hash zero_finalizers (Some zero_block) [] zero_mem 1000
  = cn_hash zero_finalizers (Some (replicate (Z.to_nat CN_MEMORY) 255))
            [] zero_mem 1000.
Proof.
  apply cn_hash_ignores_block_contents.
  - exact zero_block_length.
  - rewrite length_replicate. apply Z2Nat.id. unfold CN_MEMORY. lia.
Defined.

(** ** [try_hash] *)

(** X17. When [malloc] fails, [try_hash] on a blob of at most 256 bytes
    still compares: it leaves the memory as it was and reports whether
    the eight bytes already at [out_hash + 24] are below the target. *)
Theorem try_hash_alloc_failure_reads_stale_output
        F m blob blob_len nonce target out_hash :
  blob_len <= 256 ->
  try_hash F None m blob blob_len nonce target out_hash
  = Some (if decide (le_to_Z (mem_read m (out_hash + 24) 8) < target)
          then 1 else 0, m).
Proof.
  intros Hlen. unfold try_hash.
  rewrite (try_hash_input_accepted m blob blob_len nonce Hlen).
  unfold cn_hash. rewrite bind_Some_l. reflexivity.
Qed.

Lemma try_hash_alloc_failure_reads_stale_output_witness :
  try_hash zero_finalizers None zero_mem 0 76 7 1 1000
  = Some (if decide (le_to_Z (mem_read zero_mem (1000 + 24) 8) < 1)
          then 1 else 0, zero_mem).
Proof.
  apply try_hash_alloc_failure_reads_stale_output. lia.
Defined.

End HashProofs.
